(** * ETL pipeline of [etl_script.py]: a shallow embedding and its properties

    The script joins the Olist marketplace tables, resolves each order to a
    delivery coordinate and enriches it with two external series (the S&P 500
    close of the purchase date, the weather of the delivery date).

    Conventions of the embedding.
    - A pandas data frame is a list of records, one record per row, in row
      order.  A column that the pipeline itself can leave null (a left join
      without match, a lookup that misses, [NaT]) has an [option] type.
    - Python floats are idealised as exact rationals ([num]); no property
      below depends on rounding.
    - A naive or UTC [datetime] is an integer number of seconds ([Z]).
    - Code that can raise returns a [result]; code that also performs HTTP
      calls or sleeps runs in the state-and-error monad [M] over a [world]
      that records every call and every sleep.
    - Library functions whose behaviour belongs to another package (the time
      zone database, [strftime]/[strptime], yfinance, the HTTP server) are
      the fields of the class [Externals].
    - [logging] calls only write to the process log and are left out. *)

From Stdlib Require Import QArith Qcanon ZArith.
From stdpp Require Import gmap strings list fin_maps sorting.

Local Open Scope Z_scope.

(** ** Numbers *)

Definition num : Type := Qc.

Definition num_of_Z (z : Z) : num := Q2Qc (inject_Z z).
Definition num_frac (a : Z) (b : positive) : num := Q2Qc (a # b).

(** Python's builtin [sum] over numbers, and the count of a list as a number. *)
Definition sum_list (xs : list num) : num := foldr Qcplus (num_of_Z 0) xs.
Definition count (xs : list num) : num := num_of_Z (Z.of_nat (length xs)).

(** ** Exceptions and results *)

(** The subclasses of Python's [Exception] that the pipeline can meet. *)
Inductive exn : Type :=
  | ValueError
  | KeyError (key : string)
  | IndexError
  | JSONDecodeError
  | ConnectionError
  | Timeout
  | HTTPError (status : Z)
  | OtherError (msg : string).

Inductive result (A : Type) : Type :=
  | Ok (a : A)
  | Raise (e : exn).
Arguments Ok {A} a.
Arguments Raise {A} e.

Definition result_bind {A B} (r : result A) (k : A → result B) : result B :=
  match r with
  | Ok a => k a
  | Raise e => Raise e
  end.

(** [d[key]] on an optional entry, and [xs[i]] on a list. *)
Definition getitem {A} (key : string) (o : option A) : result A :=
  match o with
  | Some a => Ok a
  | None => Raise (KeyError key)
  end.

Definition index {A} (xs : list A) (i : nat) : result A :=
  match xs !! i with
  | Some a => Ok a
  | None => Raise IndexError
  end.

(** ** Constants *)

Definition TIMEZONE : string := "America/Sao_Paulo".
Definition OUTPUT_CSV : string := "aggregated_seller_order_context.csv".
Definition VALID_LAT_RANGE : num * num := (num_of_Z (-90), num_of_Z 90).
Definition VALID_LON_RANGE : num * num := (num_of_Z (-180), num_of_Z 180).

(** [validate_coordinates(lat, lon)] *)
Definition validate_coordinates (lat lon : num) : bool :=
  bool_decide (VALID_LAT_RANGE.1 ≤ lat ∧ lat ≤ VALID_LAT_RANGE.2)%Qc
  && bool_decide (VALID_LON_RANGE.1 ≤ lon ∧ lon ≤ VALID_LON_RANGE.2)%Qc.

(** ** Strings as dates

    Date strings have the form YYYY-MM-DD; Python compares them as strings,
    which is [String.le] (lexicographic on characters). *)

Definition str_lt (a b : string) : Prop := (a ≤ b)%string ∧ a ≠ b.

(** Python's [min] and [max] on a sequence of strings; [None] stands for the
    [ValueError] on an empty sequence.  Both return the first extremal
    element. *)
Definition min_str (xs : list string) : option string :=
  match xs with
  | [] => None
  | x :: xs' => Some (foldl (λ m y, if bool_decide (str_lt y m) then y else m) x xs')
  end.

Definition max_str (xs : list string) : option string :=
  match xs with
  | [] => None
  | x :: xs' => Some (foldl (λ m y, if bool_decide (str_lt m y) then y else m) x xs')
  end.

(** pandas' [unique]: the distinct values in order of first appearance. *)
Fixpoint unique_from {A} `{EqDecision A} (seen : list A) (xs : list A) : list A :=
  match xs with
  | [] => []
  | x :: xs' =>
      if decide (x ∈ seen) then unique_from seen xs'
      else x :: unique_from (x :: seen) xs'
  end.

Definition unique {A} `{EqDecision A} (xs : list A) : list A := unique_from [] xs.

(** * Coordinate Resolver: [process_geolocations] *)

Record geo_row : Type := {
  geolocation_zip_code_prefix : string;
  geolocation_lat : num;
  geolocation_lng : num;
  geolocation_city : string;
  geolocation_state : string
}.

(** pandas' ['mean'] aggregation: the sum of the values over their count. *)
Definition mean (xs : list num) : num := (sum_list xs / count xs)%Qc.

(** pandas' ['first'] aggregation on a (non-empty) group. *)
Definition first (xs : list string) : string := default "" (head xs).

(** [groupby(key)] visits the distinct keys in sorted order. *)
Definition zip_keys (geolocations : list geo_row) : list string :=
  merge_sort String.le (remove_dups (geolocation_zip_code_prefix <$> geolocations)).

Definition zip_group (k : string) (geolocations : list geo_row) : list geo_row :=
  filter (λ r, geolocation_zip_code_prefix r = k) geolocations.

Definition agg_zip_group (k : string) (g : list geo_row) : geo_row :=
  {| geolocation_zip_code_prefix := k;
     geolocation_lat := mean (geolocation_lat <$> g);
     geolocation_lng := mean (geolocation_lng <$> g);
     geolocation_city := first (geolocation_city <$> g);
     geolocation_state := first (geolocation_state <$> g) |}.

Definition valid_geo_row (x : geo_row) : Prop :=
  validate_coordinates (geolocation_lat x) (geolocation_lng x) = true.

#[global] Instance valid_geo_row_dec x : Decision (valid_geo_row x).
Proof. unfold valid_geo_row. apply _. Defined.

Definition process_geolocations (geolocations : list geo_row) : list geo_row :=
  let geo_processed :=
    (λ k, agg_zip_group k (zip_group k geolocations)) <$> zip_keys geolocations in
  filter valid_geo_row geo_processed.

(** * Relational Joiner: [join_olist_data] *)

(** The cleaned input tables.  [clean_raw_data] requires neither
    [freight_value] nor [customer_id] to be present, so both stay nullable. *)
Module sellers.
Record row : Type := {
  seller_id : string;
  seller_zip_code_prefix : string;
  seller_city : string;
  seller_state : string
}.
End sellers.

Module order_items.
Record row : Type := {
    order_id : string;
    order_item_id : Z;
    product_id : string;
    seller_id : string;
    price : num;
    freight_value : option num
}.
End order_items.

Module orders.
Record row : Type := {
    order_id : string;
    customer_id : option string;
    order_status : string;
    order_purchase_timestamp : Z;
    order_delivered_customer_date : Z
}.
End orders.

Module customers.
Record row : Type := {
    customer_id : string;
    customer_zip_code_prefix : string
}.
End customers.

(** A row of [orders_items], the inner merge of the order lines with the
    projected orders. *)
Record orders_items_row : Type := {
  oi_order_id : string;
  oi_seller_id : string;
  oi_price : num;
  oi_freight_value : option num;
  oi_customer_id : option string;
  oi_order_purchase_timestamp : Z;
  oi_order_delivered_customer_date : Z
}.

(** [pd.merge(order_items, orders[[...]], on='order_id', how='inner')] *)
Definition merge_order_items_orders
    (items : list order_items.row) (ords : list orders.row) : list orders_items_row :=
  i ← items;
  o ← filter (λ o, orders.order_id o = order_items.order_id i) ords;
  [ {| oi_order_id := order_items.order_id i;
       oi_seller_id := order_items.seller_id i;
       oi_price := order_items.price i;
       oi_freight_value := order_items.freight_value i;
       oi_customer_id := orders.customer_id o;
       oi_order_purchase_timestamp := orders.order_purchase_timestamp o;
       oi_order_delivered_customer_date := orders.order_delivered_customer_date o |} ].

(** The column [total_price = price + freight_value]; null when the freight
    is null. *)
Definition total_price (r : orders_items_row) : option num :=
  (λ f, (oi_price r + f)%Qc) <$> oi_freight_value r.

(** pandas' ['sum'] aggregation skips nulls. *)
Definition sum_skipna (xs : list (option num)) : num := sum_list (omap id xs).

(** The grouping key (order_id, seller_id, customer_id, purchase timestamp,
    delivered date).  [groupby] leaves out the rows whose key has a null. *)
Definition order_key : Type := string * string * string * Z * Z.

Definition group_key (r : orders_items_row) : option order_key :=
  c ← oi_customer_id r;
  Some (oi_order_id r, oi_seller_id r, c,
        oi_order_purchase_timestamp r, oi_order_delivered_customer_date r).

(** Lexicographic order on key tuples, the order in which [groupby] emits
    the groups. *)
Definition lex_le {A B} (RA : relation A) (RB : relation B) : relation (A * B) :=
  λ x y, RA x.1 y.1 ∧ (x.1 = y.1 → RB x.2 y.2).

Definition order_key_le : relation order_key :=
  lex_le (lex_le (lex_le (lex_le String.le String.le) String.le) Z.le) Z.le.

#[global] Instance order_key_le_dec : RelDecision order_key_le.
Proof. intros x y. unfold order_key_le, lex_le. apply _. Defined.

Definition order_keys (orders_items : list orders_items_row) : list order_key :=
  merge_sort order_key_le (remove_dups (omap group_key orders_items)).

Definition order_group (k : order_key) (orders_items : list orders_items_row)
    : list orders_items_row :=
  filter (λ r, group_key r = Some k) orders_items.

(** A row of [order_agg]. *)
Record order_agg_row : Type := {
  agg_order_id : string;
  agg_seller_id : string;
  agg_customer_id : string;
  agg_order_purchase_timestamp : Z;
  agg_order_delivered_customer_date : Z;
  agg_total_order_value : num
}.

Definition agg_order_group (k : order_key) (g : list orders_items_row) : order_agg_row :=
  let '(oid, sid, cid, purchased, delivered) := k in
  {| agg_order_id := oid;
     agg_seller_id := sid;
     agg_customer_id := cid;
     agg_order_purchase_timestamp := purchased;
     agg_order_delivered_customer_date := delivered;
     agg_total_order_value := sum_skipna (total_price <$> g) |}.

(** [pd.merge(left, right, how='left')]: every left row once per matching
    right row, or once with nulls when nothing matches. *)
Definition merge_left {L R} (matches : L → list R) (left : list L) : list (L * option R) :=
  l ← left;
  match matches l with
  | [] => [(l, None)]
  | rs => (λ r, (l, Some r)) <$> rs
  end.

(** The final frame: [required_cols], none of them null. *)
Module joined.
Record row : Type := {
  order_id : string;
  seller_id : string;
  order_purchase_timestamp : Z;
  order_delivered_customer_date : Z;
  total_order_value : num;
  delivery_location_latitude : num;
  delivery_location_longitude : num
}.
End joined.

(** [dropna(subset=required_cols)[required_cols]] on one row of the merged
    frame: only the coordinate columns can be null. *)
Definition dropna_required
    (r : order_agg_row * option customers.row * option geo_row) : option joined.row :=
  let '(a, _, g) := r in
  g ← g;
  Some {| joined.order_id := agg_order_id a;
          joined.seller_id := agg_seller_id a;
          joined.order_purchase_timestamp := agg_order_purchase_timestamp a;
          joined.order_delivered_customer_date := agg_order_delivered_customer_date a;
          joined.total_order_value := agg_total_order_value a;
          joined.delivery_location_latitude := geolocation_lat g;
          joined.delivery_location_longitude := geolocation_lng g |}.

(** The [sellers] frame is an argument that the function never reads. *)
Definition join_olist_data
    (sells : list sellers.row) (ords : list orders.row) (items : list order_items.row)
    (geo_processed : list geo_row) (custs : list customers.row) : list joined.row :=
  let orders_items := merge_order_items_orders items ords in
  let order_agg :=
    (λ k, agg_order_group k (order_group k orders_items)) <$> order_keys orders_items in
  let with_customer :=
    merge_left
      (λ a, filter (λ c, customers.customer_id c = agg_customer_id a) custs)
      order_agg in
  let with_geo :=
    merge_left
      (λ ac : order_agg_row * option customers.row,
         match ac.2 with
         | Some c =>
             filter (λ g, geolocation_zip_code_prefix g = customers.customer_zip_code_prefix c)
                    geo_processed
         | None => []
         end)
      with_customer in
  omap dropna_required with_geo.

(** ** Vocabulary for the joiner *)



(** * The outside world *)

(** ** The weather service *)

Definition WEATHER_API_URL : string := "https://archive-api.open-meteo.com/v1/archive".

(** The query of a weather request ([params]). *)
Record weather_params : Type := {
  latitude : num;
  longitude : num;
  start_date : string;
  end_date : string;
  daily : list string;
  timezone : string
}.

(** The object under ["daily"] of a response; a missing key is [None], a
    JSON [null] inside a series is [None] too. *)
Record daily_series : Type := {
  time : option (list string);
  temperature_2m_mean : option (list (option num));
  precipitation_sum : option (list (option num))
}.

(** The body of a response: not JSON at all, or a JSON object with or without
    a ["daily"] member. *)
Inductive body : Type :=
  | NotJson
  | JsonObject (daily_member : option daily_series).

Record response : Type := {
  status_code : Z;
  content : body
}.

(** What one [requests.get] does: it raises (connection error, timeout) or
    returns a response, of whatever status. *)
Inductive get_outcome : Type :=
  | GetRaises (e : exn)
  | GetReturns (r : response).

(** ** Library functions and services *)

Class Externals : Type := {
  (** [t.strftime("%Y-%m-%d")] *)
  strftime : Z → string;
  (** [datetime.strptime(s, "%Y-%m-%d")]; [None] is its [ValueError] *)
  strptime : string → option Z;
  (** [.dt.tz_localize(TIMEZONE, ambiguous='NaT', nonexistent='NaT')
      .dt.tz_convert('UTC')] on one timestamp; [None] is [NaT] *)
  tz_localize_utc : Z → option Z;
  (** [yf.Ticker(SP500_TICKER).history(start, end, interval='1d')], reduced
      to its index and its [Close] column *)
  history : string → Z → result (list (Z * num));
  (** the outcome of the [n]-th HTTP GET of the run *)
  http_get : nat → string → weather_params → get_outcome
}.

(** ** The state-and-error monad *)

Record http_call : Type := {
  call_url : string;
  call_params : weather_params;
  call_outcome : get_outcome
}.

Record world : Type := {
  calls : list http_call;
  sleeps : list Z
}.

Definition world0 : world := {| calls := []; sleeps := [] |}.

Definition M (A : Type) : Type := world → result A * world.

Definition ret {A} (a : A) : M A := λ w, (Ok a, w).

Definition bind {A B} (m : M A) (k : A → M B) : M B :=
  λ w, match m w with
       | (Ok a, w') => k a w'
       | (Raise e, w') => (Raise e, w')
       end.

Definition raise {A} (e : exn) : M A := λ w, (Raise e, w).

Definition lift {A} (r : result A) : M A := λ w, (r, w).

(** [try: m except Exception as e: h e] *)
Definition try_except {A} (m : M A) (h : exn → M A) : M A :=
  λ w, match m w with
       | (Ok a, w') => (Ok a, w')
       | (Raise e, w') => h e w'
       end.

Declare Scope etl_scope.
Delimit Scope etl_scope with etl.
Notation "x <- m ;; k" := (bind m (λ x, k))
  (at level 100, m at next level, right associativity) : etl_scope.
Notation "m ;;; k" := (bind m (λ _, k))
  (at level 100, right associativity) : etl_scope.
Notation "x <-r m ;; k" := (result_bind m (λ x, k))
  (at level 100, m at next level, right associativity) : etl_scope.
Local Open Scope etl_scope.

(** A loop [for x in xs: acc = body(acc, x)] whose body can raise. *)
Fixpoint for_each {A S} (body : S → A → M S) (xs : list A) (acc : S) : M S :=
  match xs with
  | [] => ret acc
  | x :: xs' => acc' <- body acc x ;; for_each body xs' acc'
  end.

Definition of_option {A} (e : exn) (o : option A) : result A :=
  match o with
  | Some a => Ok a
  | None => Raise e
  end.

Section Fetchers.
Context `{Externals}.

(** [requests.get(url, params=params, timeout=15)] *)
Definition requests_get (url : string) (params : weather_params) : M response :=
  λ w,
    let o := http_get (length (calls w)) url params in
    let w' := {| calls := calls w ++ [ {| call_url := url; call_params := params;
                                          call_outcome := o |} ];
                 sleeps := sleeps w |} in
    match o with
    | GetRaises e => (Raise e, w')
    | GetReturns r => (Ok r, w')
    end.

(** [time.sleep(delay)] *)
Definition time_sleep (delay : Z) : M unit :=
  λ w, (Ok (), {| calls := calls w; sleeps := sleeps w ++ [delay] |}).

(** [response.ok]: no client or server error status. *)
Definition response_ok (r : response) : bool :=
  negb (bool_decide (400 ≤ status_code r < 600)).

(** [response.raise_for_status()] *)
Definition raise_for_status (r : response) : M unit :=
  if response_ok r then ret () else raise (HTTPError (status_code r)).

(** [response.json()] *)
Definition json (r : response) : result (option daily_series) :=
  match content r with
  | NotJson => Raise JSONDecodeError
  | JsonObject d => Ok d
  end.

(** * Market Series Fetcher: [batch_fetch_sp500] *)

Definition one_day : Z := 86400.

(** [history.index = history.index.strftime("%Y-%m-%d")] followed by
    [history['Close'].to_dict()]; a later row overwrites an earlier one with
    the same key. *)
Definition close_to_dict (hist : list (Z * num)) : gmap string num :=
  foldl (λ m row, <[strftime row.1 := row.2]> m) ∅ hist.

(** The loop [for date in dates] with its two variables. *)
Fixpoint fill_dates (sp500_data : gmap string num) (dates : list string)
    (last_price : option num) (date_price_map : gmap string (option num))
    : gmap string (option num) :=
  match dates with
  | [] => date_price_map
  | date :: rest =>
      let last_price :=
        match sp500_data !! date with
        | Some p => Some p
        | None => last_price
        end in
      fill_dates sp500_data rest last_price (<[date := last_price]> date_price_map)
  end.

(** The body of the [try]. *)
Definition fetch_sp500 (dates : list string) : result (gmap string (option num)) :=
  start_date <-r of_option ValueError (min_str dates) ;;
  end_date <-r of_option ValueError (max_str dates) ;;
  end_datetime <-r of_option ValueError (strptime end_date) ;;
  hist <-r history start_date (end_datetime + one_day) ;;
  match hist with
  | [] => Ok ∅
  | _ => Ok (fill_dates (close_to_dict hist) dates None ∅)
  end.

Definition batch_fetch_sp500 (dates : list string) : result (gmap string (option num)) :=
  match fetch_sp500 dates with
  | Ok date_price_map => Ok date_price_map
  | Raise _ => Ok ∅
  end.

(** * Weather Series Fetcher: [retry_request] and [batch_fetch_weather] *)

Definition DEFAULT_RETRIES : nat := 3.
Definition DEFAULT_DELAY : Z := 5.

(** [for attempt in range(retries)]: the first response that passes
    [raise_for_status] is returned; after every failed attempt the function
    sleeps [delay]. *)
Fixpoint retry_request (url : string) (params : weather_params)
    (retries : nat) (delay : Z) : M (option response) :=
  match retries with
  | O => ret None
  | S remaining =>
      attempt <- try_except
                   (response <- requests_get url params ;;
                    raise_for_status response ;;;
                    ret (Some response))
                   (λ _, time_sleep delay ;;; ret None) ;;
      match attempt with
      | Some response => ret (Some response)
      | None => retry_request url params remaining delay
      end
  end.

Record weather : Type := {
  mean_temp : option num;
  precipitation : option num
}.

(** [location_groups[(lat, lon)].append(date)] on a [defaultdict(list)],
    which keeps its keys in insertion order. *)
Fixpoint group_append (key : num * num) (date : string)
    (groups : list (num * num * list string)) : list (num * num * list string) :=
  match groups with
  | [] => [(key, [date])]
  | (k, ds) :: rest =>
      if decide (k = key) then (k, ds ++ [date]) :: rest
      else (k, ds) :: group_append key date rest
  end.

Definition location_groups (location_dates : list (num * num * string))
    : list (num * num * list string) :=
  foldl (λ groups ld, group_append ld.1 ld.2 groups) [] location_dates.

(** [for i, date in enumerate(data['daily']['time'])], from index [i] on. *)
Fixpoint record_daily (lat lon : num) (dates : list string) (d : daily_series)
    (i : nat) (times : list string) (weather_data : gmap (num * num * string) weather)
    : result (gmap (num * num * string) weather) :=
  match times with
  | [] => Ok weather_data
  | date :: rest =>
      if decide (date ∈ dates) then
        temps <-r getitem "temperature_2m_mean" (temperature_2m_mean d) ;;
        t <-r index temps i ;;
        precs <-r getitem "precipitation_sum" (precipitation_sum d) ;;
        p <-r index precs i ;;
        record_daily lat lon dates d (S i) rest
          (<[(lat, lon, date) := {| mean_temp := t; precipitation := p |}]> weather_data)
      else record_daily lat lon dates d (S i) rest weather_data
  end.

Definition weather_query (lat lon : num) (first_date last_date : string) : weather_params :=
  {| latitude := lat;
     longitude := lon;
     start_date := first_date;
     end_date := last_date;
     daily := ["temperature_2m_mean"; "precipitation_sum"];
     timezone := TIMEZONE |}.

(** What the loop body does with the outcome of [retry_request]: the part
    from [if response:] on, which neither calls nor sleeps. *)
Definition record_response (lat lon : num) (dates : list string)
    (response : option response) (weather_data : gmap (num * num * string) weather)
    : result (gmap (num * num * string) weather) :=
  match response with
  | Some r =>
      if response_ok r then
        data <-r json r ;;
        match data with
        | Some d =>
            times <-r getitem "time" (time d) ;;
            record_daily lat lon dates d 0 times weather_data
        | None => Ok weather_data
        end
      else Ok weather_data
  | None => Ok weather_data
  end.

(** The body of the loop over [location_groups.items()]. *)
Definition fetch_group (weather_data : gmap (num * num * string) weather)
    (group : num * num * list string) : M (gmap (num * num * string) weather) :=
  let '(lat, lon, dates) := group in
  if negb (validate_coordinates lat lon) then ret weather_data
  else
    first_date <- lift (of_option ValueError (min_str dates)) ;;
    last_date <- lift (of_option ValueError (max_str dates)) ;;
    let params := weather_query lat lon first_date last_date in
    response <- retry_request WEATHER_API_URL params DEFAULT_RETRIES DEFAULT_DELAY ;;
    lift (record_response lat lon dates response weather_data).

Definition batch_fetch_weather (location_dates : list (num * num * string))
    : M (gmap (num * num * string) weather) :=
  for_each fetch_group (location_groups location_dates) ∅.

End Fetchers.

(** ** Vocabulary for the retry policy *)

(** An attempt fails when [requests.get] raises or when the status of the
    response makes [raise_for_status] raise. *)
Definition attempt_fails (o : get_outcome) : Prop :=
  match o with
  | GetRaises _ => True
  | GetReturns r => 400 ≤ status_code r < 600
  end.

#[global] Instance attempt_fails_dec o : Decision (attempt_fails o).
Proof. destruct o; simpl; apply _. Defined.

(** The log entries of [k] consecutive attempts of one request, the first
    of them being the [n]-th call of the run. *)
Definition attempt_log `{Externals} (url : string) (params : weather_params)
    (n k : nat) : list http_call :=
  (λ i, {| call_url := url; call_params := params;
           call_outcome := http_get (n + i) url params |}) <$> seq 0 k.

(** The world after one more logged attempt, and after one more sleep. *)
Definition logged `{Externals} (w : world) (url : string) (params : weather_params) : world :=
  {| calls := calls w ++ attempt_log url params (length (calls w)) 1;
     sleeps := sleeps w |}.

Definition slept (w : world) (delay : Z) : world :=
  {| calls := calls w; sleeps := sleeps w ++ [delay] |}.

(** A logged call for the coordinate [(lat, lon)] that returned [r] with a
    status accepted by [raise_for_status]. *)
Definition answered (c : http_call) (lat lon : num) (r : response) : Prop :=
  latitude (call_params c) = lat
  ∧ longitude (call_params c) = lon
  ∧ call_outcome c = GetReturns r
  ∧ ¬ (400 ≤ status_code r < 600).




(** * Enrichment Merger: [enrich_data] *)

(** A row of the frame being enriched, restricted to [final_fields].  The
    columns that enrichment can leave null are options. *)
Module enriched.
Record row : Type := {
  order_id : string;
  seller_id : string;
  order_purchase_timestamp : option Z;
  order_delivered_customer_date : option Z;
  total_order_value : num;
  market_sentiment_on_purchase_date : option num;
  delivery_location_latitude : num;
  delivery_location_longitude : num;
  delivery_date_mean_temp : option num;
  delivery_date_precipitation_sum : option num
}.
End enriched.

(** A joined row with its two timestamps localized and converted to UTC. *)
Record localized_row : Type := {
  source_row : joined.row;
  purchase_utc : option Z;
  delivered_utc : option Z
}.

(** A localized row that survived [dropna] on the two timestamps. *)
Record dated_row : Type := {
  dated_source : joined.row;
  purchased_at : Z;
  delivered_at : Z
}.

Definition dropna_timestamps (r : localized_row) : option dated_row :=
  p ← purchase_utc r;
  d ← delivered_utc r;
  Some {| dated_source := source_row r; purchased_at := p; delivered_at := d |}.

(** None of [final_fields] is null. *)
Definition complete (r : enriched.row) : Prop :=
  is_Some (enriched.order_purchase_timestamp r)
  ∧ is_Some (enriched.order_delivered_customer_date r)
  ∧ is_Some (enriched.market_sentiment_on_purchase_date r)
  ∧ is_Some (enriched.delivery_date_mean_temp r)
  ∧ is_Some (enriched.delivery_date_precipitation_sum r).

#[global] Instance complete_dec r : Decision (complete r).
Proof. unfold complete. apply _. Defined.

Section Enrichment.
Context `{Externals}.

Definition localize (r : joined.row) : localized_row :=
  {| source_row := r;
     purchase_utc := tz_localize_utc (joined.order_purchase_timestamp r);
     delivered_utc := tz_localize_utc (joined.order_delivered_customer_date r) |}.

Definition purchase_date (r : dated_row) : string := strftime (purchased_at r).

Definition weather_key (r : dated_row) : num * num * string :=
  (joined.delivery_location_latitude (dated_source r),
   joined.delivery_location_longitude (dated_source r),
   strftime (delivered_at r)).

(** The columns added to one row from the two fetched mappings:
    [Series.map(sp500_prices)] and [weather_data.get(key, {}).get(field)]. *)
Definition attach (sp500_prices : gmap string (option num))
    (weather_data : gmap (num * num * string) weather) (r : dated_row) : enriched.row :=
  let j := dated_source r in
  {| enriched.order_id := joined.order_id j;
     enriched.seller_id := joined.seller_id j;
     enriched.order_purchase_timestamp := Some (purchased_at r);
     enriched.order_delivered_customer_date := Some (delivered_at r);
     enriched.total_order_value := joined.total_order_value j;
     enriched.market_sentiment_on_purchase_date := mjoin (sp500_prices !! purchase_date r);
     enriched.delivery_location_latitude := joined.delivery_location_latitude j;
     enriched.delivery_location_longitude := joined.delivery_location_longitude j;
     enriched.delivery_date_mean_temp := weather_data !! weather_key r ≫= mean_temp;
     enriched.delivery_date_precipitation_sum :=
       weather_data !! weather_key r ≫= precipitation |}.

Definition enrich_data (df : list joined.row) : M (list enriched.row) :=
  let df := omap dropna_timestamps (localize <$> df) in
  let purchase_dates := unique (purchase_date <$> df) in
  sp500_prices <- lift (batch_fetch_sp500 purchase_dates) ;;
  let location_dates := weather_key <$> df in
  weather_data <- batch_fetch_weather location_dates ;;
  let df := attach sp500_prices weather_data <$> df in
  ret (filter complete df).

(** ** Vocabulary for the enrichment *)

(** What [enrich_data] makes of one joined row, given the two fetched
    mappings: nothing when a timestamp does not localize or when a final
    field is null. *)
Definition enrich_row (sp500_prices : gmap string (option num))
    (weather_data : gmap (num * num * string) weather) (j : joined.row)
    : option enriched.row :=
  r ← dropna_timestamps (localize j);
  let e := attach sp500_prices weather_data r in
  if decide (complete e) then Some e else None.

(** The enriched row [e] carries the join-stage fields of [j] unchanged and
    the timestamps of [j] localized and converted to UTC. *)
Definition enriches (j : joined.row) (e : enriched.row) : Prop :=
  enriched.order_id e = joined.order_id j
  ∧ enriched.seller_id e = joined.seller_id j
  ∧ enriched.total_order_value e = joined.total_order_value j
  ∧ enriched.delivery_location_latitude e = joined.delivery_location_latitude j
  ∧ enriched.delivery_location_longitude e = joined.delivery_location_longitude j
  ∧ enriched.order_purchase_timestamp e
    = tz_localize_utc (joined.order_purchase_timestamp j)
  ∧ enriched.order_delivered_customer_date e
    = tz_localize_utc (joined.order_delivered_customer_date j).

(** A joined row with a timestamp that does not localize, or without a
    market price for its purchase date, or without a weather value for its
    delivery coordinate and date. *)
Definition unresolved (sp500_prices : gmap string (option num))
    (weather_data : gmap (num * num * string) weather) (j : joined.row) : Prop :=
  match tz_localize_utc (joined.order_purchase_timestamp j),
        tz_localize_utc (joined.order_delivered_customer_date j) with
  | Some p, Some d =>
      let key := (joined.delivery_location_latitude j,
                  joined.delivery_location_longitude j, strftime d) in
      mjoin (sp500_prices !! strftime p) = None
      ∨ weather_data !! key ≫= mean_temp = None
      ∨ weather_data !! key ≫= precipitation = None
  | _, _ => True
  end.

End Enrichment.

(** * The pipeline: [main] *)

(** The control structure of [main]: five stages in sequence inside one
    [try], whose handler logs and re-raises. *)
Section Pipeline.
Context {Raw Geo Joined Enriched : Type}.
Variable stage_load : M Raw.
Variable stage_geo : Raw → M Geo.
Variable stage_join : Raw → Geo → M Joined.
Variable stage_enrich : Joined → M Enriched.
Variable stage_output : Enriched → M unit.

Definition pipeline : M unit :=
  try_except
    (raw <- stage_load ;;
     geo_processed <- stage_geo raw ;;
     joined_data <- stage_join raw geo_processed ;;
     enriched_data <- stage_enrich joined_data ;;
     stage_output enriched_data)
    (λ e, raise e).

(** Some stage raises [e] and leaves the world [w'], the stages before it
    having returned. *)
Inductive stage_raises (w : world) (e : exn) (w' : world) : Prop :=
  | load_raises :
      stage_load w = (Raise e, w') → stage_raises w e w'
  | geo_raises raw w1 :
      stage_load w = (Ok raw, w1) →
      stage_geo raw w1 = (Raise e, w') → stage_raises w e w'
  | join_raises raw w1 geo_processed w2 :
      stage_load w = (Ok raw, w1) →
      stage_geo raw w1 = (Ok geo_processed, w2) →
      stage_join raw geo_processed w2 = (Raise e, w') → stage_raises w e w'
  | enrich_raises raw w1 geo_processed w2 joined_data w3 :
      stage_load w = (Ok raw, w1) →
      stage_geo raw w1 = (Ok geo_processed, w2) →
      stage_join raw geo_processed w2 = (Ok joined_data, w3) →
      stage_enrich joined_data w3 = (Raise e, w') → stage_raises w e w'
  | output_raises raw w1 geo_processed w2 joined_data w3 enriched_data w4 :
      stage_load w = (Ok raw, w1) →
      stage_geo raw w1 = (Ok geo_processed, w2) →
      stage_join raw geo_processed w2 = (Ok joined_data, w3) →
      stage_enrich joined_data w3 = (Ok enriched_data, w4) →
      stage_output enriched_data w4 = (Raise e, w') → stage_raises w e w'.

End Pipeline.

(** The five frames returned by [load_olist_data]. *)
Record olist_data : Type := {
  sellers : list sellers.row;
  orders : list orders.row;
  order_items : list order_items.row;
  geolocations : list geo_row;
  customers : list customers.row
}.

(** [main], with its two file-system collaborators as arguments:
    [load_olist_data] reads and cleans the input files, [to_csv] writes the
    output file. *)
Definition main `{Externals}
    (load_olist_data : M olist_data)
    (to_csv : list enriched.row → string → M unit) : M unit :=
  pipeline load_olist_data
    (λ raw, ret (process_geolocations (geolocations raw)))
    (λ raw geo_processed,
       ret (join_olist_data (sellers raw) (orders raw) (order_items raw)
              geo_processed (customers raw)))
    enrich_data
    (λ enriched_data, to_csv enriched_data OUTPUT_CSV).

(** * Concrete collaborators for the examples *)

(** A five-day calendar around New Year 2024; day 19723 of the epoch is
    2024-01-01. *)
Definition example_days : list (Z * string) :=
  [ (19722, "2023-12-31"); (19723, "2024-01-01"); (19724, "2024-01-02");
    (19725, "2024-01-03"); (19726, "2024-01-04") ]%string.

Definition example_strftime (t : Z) : string :=
  default "1970-01-01"%string
    ((λ found, found.2.2) <$> list_find (λ d, d.1 = t `div` one_day) example_days).

Definition example_strptime (s : string) : option Z :=
  (λ found, found.2.1 * one_day) <$> list_find (λ d, d.2 = s) example_days.

Definition midnight (day : Z) : Z := day * one_day.

(** Sao Paulo has been at UTC-3 without daylight saving since 2019; the
    example zone only declares one wall-clock instant non-existent. *)
Definition example_nonexistent : Z := midnight 19724 + 1800.

Definition example_tz_localize_utc (t : Z) : option Z :=
  if decide (t = example_nonexistent) then None else Some (t + 3 * 3600).

Definition example_externals
    (hist : string → Z → result (list (Z * num)))
    (server : nat → string → weather_params → get_outcome) : Externals :=
  {| strftime := example_strftime;
     strptime := example_strptime;
     tz_localize_utc := example_tz_localize_utc;
     history := hist;
     http_get := server |}.

(** The series {"2024-01-01": 100, "2024-01-03": 102}. *)
Definition example_history (first_date : string) (last : Z) : result (list (Z * num)) :=
  Ok [ (midnight 19723, num_of_Z 100); (midnight 19725, num_of_Z 102) ].

Definition failing_history (first_date : string) (last : Z) : result (list (Z * num)) :=
  Raise ConnectionError.

Definition example_daily : daily_series :=
  {| time := Some ["2024-01-01"; "2024-01-02"; "2024-01-03"]%string;
     temperature_2m_mean :=
       Some [Some (num_frac 45 2); Some (num_frac 231 10); Some (num_of_Z 24)];
     precipitation_sum :=
       Some [Some (num_of_Z 0); Some (num_frac 6 5); Some (num_of_Z 0)] |}.

Definition example_response : response :=
  {| status_code := 200; content := JsonObject (Some example_daily) |}.

(** A server that never answers. *)
Definition server_down (n : nat) (url : string) (p : weather_params) : get_outcome :=
  GetRaises ConnectionError.

(** A server that fails twice (a timeout, then a 503) and then answers. *)
Definition server_flaky (n : nat) (url : string) (p : weather_params) : get_outcome :=
  match n with
  | 0%nat => GetRaises Timeout
  | 1%nat => GetReturns {| status_code := 503; content := NotJson |}
  | _ => GetReturns example_response
  end.

(** A server that answers 200 with a body that is not JSON. *)
Definition server_garbled (n : nat) (url : string) (p : weather_params) : get_outcome :=
  GetReturns {| status_code := 200; content := NotJson |}.

Definition sao_paulo : num * num := (num_frac (-471) 20, num_frac (-4663) 100).

(** The end-to-end scenario: one delivered order with one line (price 50,
    freight 10), a customer whose zip prefix has two location samples, and
    two siblings of the order that enrichment has to drop. *)
Definition example_geolocations : list geo_row :=
  [ {| geolocation_zip_code_prefix := "01310"; geolocation_lat := num_frac (-47) 2;
       geolocation_lng := num_frac (-4663) 100;
       geolocation_city := "sao paulo"; geolocation_state := "SP" |};
    {| geolocation_zip_code_prefix := "01310"; geolocation_lat := num_frac (-118) 5;
       geolocation_lng := num_frac (-4663) 100;
       geolocation_city := "sao paulo"; geolocation_state := "SP" |} ]%string.

Definition example_customers : list customers.row :=
  [ {| customers.customer_id := "c1"; customers.customer_zip_code_prefix := "01310" |};
    {| customers.customer_id := "c2"; customers.customer_zip_code_prefix := "99999" |} ]%string.

Definition example_orders : list orders.row :=
  [ {| orders.order_id := "o1"; orders.customer_id := Some "c1";
       orders.order_status := "delivered";
       orders.order_purchase_timestamp := midnight 19723 + 12 * 3600;
       orders.order_delivered_customer_date := midnight 19725 + 10 * 3600 |};
    {| orders.order_id := "o2"; orders.customer_id := Some "c2";
       orders.order_status := "delivered";
       orders.order_purchase_timestamp := midnight 19723 + 12 * 3600;
       orders.order_delivered_customer_date := midnight 19725 + 10 * 3600 |} ]%string.

Definition example_order_items : list order_items.row :=
  [ {| order_items.order_id := "o1"; order_items.order_item_id := 1;
       order_items.product_id := "p1"; order_items.seller_id := "s1";
       order_items.price := num_of_Z 50; order_items.freight_value := Some (num_of_Z 10) |};
    {| order_items.order_id := "o2"; order_items.order_item_id := 1;
       order_items.product_id := "p1"; order_items.seller_id := "s1";
       order_items.price := num_of_Z 20; order_items.freight_value := Some (num_of_Z 5) |} ]%string.

Definition example_joined_row (oid : string) (purchased delivered : Z) : joined.row :=
  {| joined.order_id := oid; joined.seller_id := "s1";
     joined.order_purchase_timestamp := purchased;
     joined.order_delivered_customer_date := delivered;
     joined.total_order_value := num_of_Z 60;
     joined.delivery_location_latitude := sao_paulo.1;
     joined.delivery_location_longitude := sao_paulo.2 |}.

Definition example_joined : list joined.row :=
  [ example_joined_row "o1" (midnight 19723 + 12 * 3600) (midnight 19725 + 10 * 3600);
    example_joined_row "o3" example_nonexistent (midnight 19725 + 10 * 3600);
    example_joined_row "o4" (midnight 19723 + 12 * 3600) (midnight 19726 + 10 * 3600) ]%string.

Definition example_olist_data : olist_data :=
  {| sellers := []; orders := example_orders; order_items := example_order_items;
     geolocations := example_geolocations; customers := example_customers |}.

(** A loader that finds no input file, and a writer that always succeeds. *)
Definition load_missing_file : M olist_data := raise (OtherError "FileNotFoundError").
Definition to_csv_ok (enriched_data : list enriched.row) (path : string) : M unit := ret ().

(** * Vocabulary for the further properties *)

Section MarketVocabulary.
Context `{Externals}.

(** The series that [batch_fetch_sp500] obtains for [dates], when the range
    can be computed and the data source answers. *)
Definition fetched_series (dates : list string) : option (list (Z * num)) :=
  first_date ← min_str dates;
  last_date ← max_str dates;
  t ← strptime last_date;
  match history first_date (t + one_day) with
  | Ok hist => Some hist
  | Raise _ => None
  end.

End MarketVocabulary.

(** A logged call whose attempt did not fail. *)
Definition call_answered (c : http_call) : Prop := ¬ attempt_fails (call_outcome c).

#[global] Instance call_answered_dec c : Decision (call_answered c).
Proof. unfold call_answered. apply _. Defined.

Definition call_coordinate (c : http_call) : num * num :=
  (latitude (call_params c), longitude (call_params c)).

Definition valid_coordinate (k : num * num) : Prop :=
  validate_coordinates k.1 k.2 = true.

#[global] Instance valid_coordinate_dec k : Decision (valid_coordinate k).
Proof. unfold valid_coordinate. apply _. Defined.

(** An outcome that the loop body can digest: a failed attempt, or a
    success whose body is a JSON object, without daily series or with one
    that has its three members, the value lists covering the dates. *)
Definition digestible (o : get_outcome) : Prop :=
  match o with
  | GetRaises _ => True
  | GetReturns r =>
      400 ≤ status_code r < 600
      ∨ match content r with
        | NotJson => False
        | JsonObject None => True
        | JsonObject (Some d) =>
            ∃ times temps precs,
              time d = Some times
              ∧ temperature_2m_mean d = Some temps
              ∧ precipitation_sum d = Some precs
              ∧ (length times ≤ length temps)%nat
              ∧ (length times ≤ length precs)%nat
        end
  end.


(** The call [c] is a call of the group [g]: to the weather service, for the
    coordinate of the group, which is valid, over the range from its
    earliest to its latest date. *)
Definition group_call (g : num * num * list string) (c : http_call) : Prop :=
  valid_coordinate g.1
  ∧ call_url c = WEATHER_API_URL
  ∧ ∃ first_date last_date,
      min_str g.2 = Some first_date
      ∧ max_str g.2 = Some last_date
      ∧ call_params c = weather_query g.1.1 g.1.2 first_date last_date.

(** What the log looks like while the loop runs, [seen] being the groups
    visited so far. *)
Definition weather_log_invariant (seen : list (num * num * list string)) (w : world) : Prop :=
  (∀ c, c ∈ calls w → ∃ g, g ∈ seen ∧ group_call g c)
  ∧ NoDup (call_coordinate <$> filter call_answered (calls w))
  ∧ (length (calls w) ≤ 3 * length (filter (λ g, valid_coordinate g.1) seen))%nat
  ∧ Forall (λ delay, delay = 5) (sleeps w)
  ∧ (length (sleeps w) ≤ length (calls w))%nat.

(** The two values of every entry of the mapping [wd] are those of one
    position of the entry's date in the daily series of a logged call that
    was answered for the entry's coordinate. *)
Definition entries_aligned (wd : gmap (num * num * string) weather) (w : world) : Prop :=
  ∀ lat lon date v, wd !! (lat, lon, date) = Some v →
    ∃ c r d times temps precs (i : nat),
      c ∈ calls w ∧ answered c lat lon r ∧ content r = JsonObject (Some d)
      ∧ time d = Some times
      ∧ temperature_2m_mean d = Some temps
      ∧ precipitation_sum d = Some precs
      ∧ times !! i = Some date
      ∧ temps !! i = Some (mean_temp v)
      ∧ precs !! i = Some (precipitation v).
(** * Properties *)

(** * Generic list facts *)

Section ListFacts.
Context {A B : Type}.

End ListFacts.

Lemma zip_keys_NoDup geolocations : NoDup (zip_keys geolocations).
Proof.
  unfold zip_keys. rewrite merge_sort_Permutation. apply NoDup_remove_dups.
Qed.

Lemma elem_of_zip_keys geolocations z :
  z ∈ zip_keys geolocations ↔ z ∈ geolocation_zip_code_prefix <$> geolocations.
Proof.
  unfold zip_keys. rewrite merge_sort_Permutation. apply elem_of_remove_dups.
Qed.

(** The samples of a key that occurs are not empty. *)
Lemma zip_group_nonempty geolocations z :
  z ∈ geolocation_zip_code_prefix <$> geolocations → zip_group z geolocations ≠ [].
Proof.
  intros (r & -> & Hr)%list_elem_of_fmap Hnil.
  assert (r ∈ zip_group (geolocation_zip_code_prefix r) geolocations) as Hin.
  { unfold zip_group. apply list_elem_of_filter. done. }
  rewrite Hnil in Hin. by apply elem_of_nil in Hin.
Qed.



(** * Market Series Fetcher *)

Section MarketFacts.
Context `{Externals}.

Lemma close_to_dict_keys (hist : list (Z * num)) (k : string) :
  is_Some (close_to_dict hist !! k) → ∃ row, row ∈ hist ∧ strftime row.1 = k.
Proof.
  unfold close_to_dict.
  assert (∀ acc : gmap string num,
    is_Some (foldl (λ m row, <[strftime row.1 := row.2]> m) acc hist !! k) →
    is_Some (acc !! k) ∨ ∃ row, row ∈ hist ∧ strftime row.1 = k) as Hgen.
  { induction hist as [|row hist IH]; intros acc Hk; simpl in Hk; [by left|].
    destruct (IH _ Hk) as [Hacc | (row' & Hin & Heq)].
    - destruct (decide (strftime row.1 = k)) as [Heq|Hne].
      + right. exists row. split; [left|done].
      + rewrite lookup_insert_ne in Hacc by done. by left.
    - right. exists row'. split; [by right|done]. }
  intros Hk. destruct (Hgen ∅ Hk) as [Hempty|?]; [|done].
  rewrite lookup_empty in Hempty. by destruct Hempty.
Qed.

(** A date that the loop does not visit keeps its entry. *)
Lemma fill_dates_not_visited sp500_data dates last_price date_price_map (d : string) :
  d ∉ dates →
  fill_dates sp500_data dates last_price date_price_map !! d = date_price_map !! d.
Proof.
  revert last_price date_price_map.
  induction dates as [|x rest IH]; intros last_price m Hd; simpl; [done|].
  apply not_elem_of_cons in Hd as [Hne Hd].
  rewrite IH by done. by rewrite lookup_insert_ne.
Qed.

(** While no visited date has a price, the carried price stays null. *)
Lemma fill_dates_before_first_price sp500_data dates date_price_map (d : string) :
  StronglySorted String.le dates →
  d ∈ dates →
  (∀ x, x ∈ dates → (x ≤ d)%string → sp500_data !! x = None) →
  fill_dates sp500_data dates None date_price_map !! d = Some None.
Proof.
  revert date_price_map.
  induction dates as [|x rest IH]; intros m Hsorted Hd Hnone.
  { by apply elem_of_nil in Hd. }
  apply StronglySorted_inv in Hsorted as [Hsorted Hx].
  assert ((x ≤ d)%string) as Hxd.
  { apply elem_of_cons in Hd as [->|Hd]; [done|].
    rewrite Forall_forall in Hx. by apply Hx. }
  simpl. rewrite (Hnone x) by (done || left).
  destruct (decide (d ∈ rest)) as [Hin|Hout].
  - apply IH; [done..|]. intros y Hy. apply Hnone. by right.
  - rewrite fill_dates_not_visited by done.
    apply elem_of_cons in Hd as [->|?]; [|done]. by rewrite lookup_insert_eq.
Qed.

End MarketFacts.

(** C1. The forward fill follows the order in which the dates are supplied,
    not their chronological order.  On the series
    {"2024-01-01": 100, "2024-01-03": 102}: the four dates in ascending order
    give 100, 100, 102, 102; the same four dates with 2024-01-04 supplied
    first give it a null price, not 102; and 2024-01-04 requested with
    2024-01-01 only gets 100, the price of the last requested date that has
    one, not the 102 of 2024-01-03. *)
Theorem batch_fetch_sp500_follows_input_order :
  let E := example_externals example_history server_down in
  @batch_fetch_sp500 E ["2024-01-01"; "2024-01-02"; "2024-01-03"; "2024-01-04"]%string
  = Ok (<["2024-01-01"%string := Some (num_of_Z 100)]>
       (<["2024-01-02"%string := Some (num_of_Z 100)]>
       (<["2024-01-03"%string := Some (num_of_Z 102)]>
       (<["2024-01-04"%string := Some (num_of_Z 102)]> ∅))))
  ∧ @batch_fetch_sp500 E ["2024-01-04"; "2024-01-01"; "2024-01-02"; "2024-01-03"]%string
  = Ok (<["2024-01-01"%string := Some (num_of_Z 100)]>
       (<["2024-01-02"%string := Some (num_of_Z 100)]>
       (<["2024-01-03"%string := Some (num_of_Z 102)]>
       (<["2024-01-04"%string := None]> ∅))))
  ∧ @batch_fetch_sp500 E ["2024-01-01"; "2024-01-04"]%string
  = Ok (<["2024-01-01"%string := Some (num_of_Z 100)]>
       (<["2024-01-04"%string := Some (num_of_Z 100)]> ∅)).
Proof. vm_compute. done. Qed.

(** C3, as stated, fails: a requested date before the first entry of a
    non-empty fetched series is a key of the returned mapping. *)
Lemma date_before_first_entry_is_a_key :
  let E := example_externals example_history server_down in
  let dates := ["2023-12-31"; "2024-01-01"]%string in
  ∃ hist m,
    @history E "2023-12-31"%string (midnight 19724) = Ok hist
    ∧ hist ≠ []
    ∧ (∀ row, row ∈ hist → str_lt "2023-12-31" (@strftime E row.1))
    ∧ @batch_fetch_sp500 E dates = Ok m
    ∧ "2023-12-31"%string ∈ dom m.
Proof.
  eexists _, _. split; [reflexivity|]. split; [done|]. split; [|split].
  - intros row Hrow. apply elem_of_cons in Hrow as [->|Hrow].
    { vm_compute. split; [done|discriminate]. }
    apply elem_of_cons in Hrow as [->|Hrow].
    { vm_compute. split; [done|discriminate]. }
    by apply elem_of_nil in Hrow.
  - vm_compute. reflexivity.
  - apply elem_of_dom. vm_compute. eauto.
Qed.

(** C3, amended.  When the dates are supplied in ascending order and the
    fetched series is not empty, a requested date that precedes every entry
    of the series is a key of the returned mapping whose value is null: it
    never carries a price. *)
Theorem batch_fetch_sp500_null_before_first_entry `{Externals}
    (dates : list string) (d first_date last_date : string) (t : Z)
    (hist : list (Z * num)) :
  Sorted String.le dates →
  d ∈ dates →
  min_str dates = Some first_date →
  max_str dates = Some last_date →
  strptime last_date = Some t →
  history first_date (t + one_day) = Ok hist →
  hist ≠ [] →
  (∀ row, row ∈ hist → str_lt d (strftime row.1)) →
  ∃ m, batch_fetch_sp500 dates = Ok m ∧ m !! d = Some None.
Proof.
  intros Hsorted Hd Hmin Hmax Hparse Hhist Hne Hbefore.
  unfold batch_fetch_sp500, fetch_sp500.
  rewrite Hmin, Hmax. simpl. rewrite Hparse. simpl. rewrite Hhist. simpl.
  destruct hist as [|row hist']; [done|].
  eexists. split; [reflexivity|].
  apply fill_dates_before_first_price; [|done|].
  - apply Sorted_StronglySorted; [|done]. intros x y z. apply transitivity.
  - intros x _ Hxd.
    destruct (close_to_dict (row :: hist') !! x) eqn:Hx; [|done].
    destruct (close_to_dict_keys (row :: hist') x) as (row' & Hin & Heq); [by eexists|].
    destruct (Hbefore row' Hin) as [Hle Hneq]. rewrite Heq in Hle, Hneq.
    destruct Hneq. by apply (anti_symm String.le).
Qed.

Lemma batch_fetch_sp500_null_before_first_entry_witness :
  let E := example_externals example_history server_down in
  ∃ m, @batch_fetch_sp500 E ["2023-12-31"; "2024-01-01"; "2024-01-02"]%string = Ok m
       ∧ m !! "2023-12-31"%string = Some None.
Proof.
  intros E.
  apply (@batch_fetch_sp500_null_before_first_entry E
           ["2023-12-31"; "2024-01-01"; "2024-01-02"]%string "2023-12-31"%string
           "2023-12-31"%string "2024-01-02"%string (midnight 19724)
           [ (midnight 19723, num_of_Z 100); (midnight 19725, num_of_Z 102) ]).
  - repeat constructor; vm_compute; done.
  - left.
  - reflexivity.
  - reflexivity.
  - reflexivity.
  - reflexivity.
  - discriminate.
  - intros row Hrow. apply elem_of_cons in Hrow as [->|Hrow].
    { vm_compute. split; [done|discriminate]. }
    apply elem_of_cons in Hrow as [->|Hrow].
    { vm_compute. split; [done|discriminate]. }
    by apply elem_of_nil in Hrow.
Defined.

(** C8. The Market Series Fetcher never raises, and it returns the empty
    mapping whenever the data source raises or returns an empty series. *)
Theorem batch_fetch_sp500_absorbs_source_errors `{Externals} (dates : list string) :
  (∃ m, batch_fetch_sp500 dates = Ok m)
  ∧ (∀ first_date last_date t,
       min_str dates = Some first_date →
       max_str dates = Some last_date →
       strptime last_date = Some t →
       (∃ e, history first_date (t + one_day) = Raise e)
       ∨ history first_date (t + one_day) = Ok [] →
       batch_fetch_sp500 dates = Ok ∅).
Proof.
  split.
  - unfold batch_fetch_sp500. destruct (fetch_sp500 dates); eauto.
  - intros first_date last_date t Hmin Hmax Hparse Hsrc.
    unfold batch_fetch_sp500, fetch_sp500.
    rewrite Hmin, Hmax. simpl. rewrite Hparse. simpl.
    destruct Hsrc as [[e ->] | ->]; done.
Qed.

Lemma batch_fetch_sp500_absorbs_source_errors_witness :
  let E := example_externals failing_history server_down in
  @batch_fetch_sp500 E ["2024-01-01"; "2024-01-02"]%string = Ok ∅.
Proof.
  intros E.
  apply (proj2 (@batch_fetch_sp500_absorbs_source_errors E
                  ["2024-01-01"; "2024-01-02"]%string)
           "2024-01-01"%string "2024-01-02"%string (midnight 19724));
    [reflexivity | reflexivity | reflexivity |].
  left. by exists ConnectionError.
Defined.

(** * Weather Series Fetcher *)

Section WeatherFacts.
Context `{Externals}.

Lemma response_ok_true r : response_ok r = true ↔ ¬ (400 ≤ status_code r < 600).
Proof.
  unfold response_ok. rewrite negb_true_iff, bool_decide_eq_false. done.
Qed.

Lemma response_ok_false r : response_ok r = false ↔ 400 ≤ status_code r < 600.
Proof.
  unfold response_ok. rewrite negb_false_iff, bool_decide_eq_true. done.
Qed.

Lemma attempt_log_S url params n k :
  attempt_log url params n (S k)
  = {| call_url := url; call_params := params; call_outcome := http_get n url params |}
    :: attempt_log url params (S n) k.
Proof.
  unfold attempt_log. simpl. rewrite Nat.add_0_r. f_equal.
  rewrite <- fmap_S_seq, <- list_fmap_compose. apply list_fmap_ext.
  intros i x _. simpl. by rewrite Nat.add_succ_r.
Qed.

(** One failed attempt: the call is logged, the function sleeps and goes on
    with one attempt less. *)
Lemma retry_request_failed url params remaining delay w :
  attempt_fails (http_get (length (calls w)) url params) →
  retry_request url params (S remaining) delay w
  = retry_request url params remaining delay (slept (logged w url params) delay).
Proof.
  intros Hfail. simpl. unfold bind at 1. unfold try_except, bind at 1, requests_get.
  unfold slept, logged, attempt_log. simpl. rewrite Nat.add_0_r.
  destruct (http_get (length (calls w)) url params) as [e|r] eqn:Hget; simpl.
  - done.
  - simpl in Hfail. unfold bind, raise_for_status.
    apply response_ok_false in Hfail. rewrite Hfail. done.
Qed.

(** One successful attempt ends the loop. *)
Lemma retry_request_answered url params remaining delay w r :
  http_get (length (calls w)) url params = GetReturns r →
  ¬ (400 ≤ status_code r < 600) →
  retry_request url params (S remaining) delay w = (Ok (Some r), logged w url params).
Proof.
  intros Hget Hok. simpl. unfold bind at 1. unfold try_except, bind at 1, requests_get.
  unfold logged, attempt_log. simpl. rewrite Nat.add_0_r. rewrite Hget.
  unfold bind, raise_for_status. apply response_ok_true in Hok. rewrite Hok. done.
Qed.

(** What [retry_request] does, in full: [f] failed attempts, each followed
    by a sleep, then either a successful attempt or the end of the budget. *)
Lemma retry_request_spec url params retries delay w :
  let n := length (calls w) in
  ∃ (f : nat) (r : option response),
    retry_request url params retries delay w
    = (Ok r, {| calls := calls w ++ attempt_log url params n (f + if r is Some _ then 1 else 0);
                sleeps := sleeps w ++ replicate f delay |})
    ∧ (∀ i, (i < f)%nat → attempt_fails (http_get (n + i) url params))
    ∧ match r with
      | Some resp => (f < retries)%nat
                     ∧ http_get (n + f) url params = GetReturns resp
                     ∧ ¬ (400 ≤ status_code resp < 600)
      | None => f = retries
      end.
Proof.
  revert w. induction retries as [|remaining IH]; intros w n.
  - exists 0%nat, None. simpl. unfold ret, attempt_log. simpl.
    rewrite !app_nil_r. destruct w. split; [done|]. split; [lia|done].
  - destruct (decide (attempt_fails (http_get n url params))) as [Hfail|Hok].
    + rewrite retry_request_failed by done.
      destruct (IH (slept (logged w url params) delay)) as (f & r & Heq & Hfails & Hr).
      assert (length (calls (slept (logged w url params) delay)) = S n) as Hlen.
      { simpl. rewrite length_app. simpl. lia. }
      rewrite Hlen in Heq, Hfails, Hr.
      exists (S f), r. split; [|split].
      * rewrite Heq. unfold slept, logged. cbn [calls sleeps].
        rewrite <- !app_assoc. cbn [replicate Nat.add].
        fold n. rewrite (attempt_log_S url params n (f + _)).
        rewrite (attempt_log_S url params n 0). done.
      * intros [|i] Hi; [by rewrite Nat.add_0_r|].
        rewrite Nat.add_succ_r. apply Hfails. lia.
      * destruct r as [resp|]; [|by subst].
        destruct Hr as (Hlt & Hget & Hstatus). rewrite Nat.add_succ_r.
        split; [lia|done].
    + destruct (http_get n url params) as [e|resp] eqn:Hget; [by destruct Hok|].
      simpl in Hok. exists 0%nat, (Some resp).
      rewrite (retry_request_answered _ _ _ _ _ resp) by done.
      unfold logged. simpl. rewrite app_nil_r, Nat.add_0_r.
      split; [done|]. split; [lia|]. split; [lia|done].
Qed.


(** When the two value series are at least as long as the date series, the
    walk cannot raise, and every requested date of the response is recorded
    with the values of one of its positions. *)
Lemma record_daily_full (lat lon : num) (dates : list string) (d : daily_series)
    (i : nat) (times : list string) (temps precs : list (option num))
    (wd : gmap (num * num * string) weather) :
  temperature_2m_mean d = Some temps →
  precipitation_sum d = Some precs →
  (i + length times ≤ length temps)%nat →
  (i + length times ≤ length precs)%nat →
  ∃ wd', record_daily lat lon dates d i times wd = Ok wd'
    ∧ (∀ date, date ∈ times → date ∈ dates →
         ∃ j t p, times !! j = Some date
                  ∧ temps !! (i + j)%nat = Some t
                  ∧ precs !! (i + j)%nat = Some p
                  ∧ wd' !! (lat, lon, date) = Some {| mean_temp := t; precipitation := p |})
    ∧ (∀ key, ¬ (∃ date, key = (lat, lon, date) ∧ date ∈ times ∧ date ∈ dates) →
         wd' !! key = wd !! key).
Proof.
  intros Htemps Hprecs. revert i wd.
  induction times as [|date0 rest IH]; intros i wd Hlt Hlp; simpl in *.
  - exists wd. split; [done|]. split; [|done].
    intros date Hin. by apply elem_of_nil in Hin.
  - rewrite Htemps, Hprecs. simpl.
    destruct (lookup_lt_is_Some_2 temps i) as [t Ht]; [lia|].
    destruct (lookup_lt_is_Some_2 precs i) as [pr Hp]; [lia|].
    destruct (decide (date0 ∈ dates)) as [Hreq|Hnot].
    + unfold index. rewrite Ht, Hp. simpl.
      destruct (IH (S i) (<[(lat, lon, date0) := {| mean_temp := t; precipitation := pr |}]> wd))
        as (wd' & Hrun & Hall & Hother); [lia..|].
      exists wd'. split; [done|]. split.
      * intros date Hin Hd. destruct (decide (date ∈ rest)) as [Hrest|Hrest].
        -- destruct (Hall date Hrest Hd) as (j & t' & p' & Hj & Ht' & Hp' & Hwd).
           exists (S j), t', p'. rewrite Nat.add_succ_r. done.
        -- apply elem_of_cons in Hin as [->|?]; [|done].
           exists 0%nat, t, pr. rewrite Nat.add_0_r. split; [done|]. split; [done|].
           split; [done|]. rewrite Hother.
           ++ by rewrite lookup_insert_eq.
           ++ intros (date & [= ->] & ? & _). done.
      * intros key Hkey. rewrite Hother.
        -- apply lookup_insert_ne. intros <-. apply Hkey. exists date0.
           split; [done|]. split; [left|done].
        -- intros (date & -> & Hin & ?). apply Hkey. exists date.
           split; [done|]. split; [by right|done].
    + destruct (IH (S i) wd) as (wd' & Hrun & Hall & Hother); [lia..|].
      exists wd'. split; [done|]. split.
      * intros date Hin Hd. apply elem_of_cons in Hin as [->|Hin]; [done|].
        destruct (Hall date Hin Hd) as (j & t' & p' & Hj & Ht' & Hp' & Hwd).
        exists (S j), t', p'. rewrite Nat.add_succ_r. done.
      * intros key Hkey. apply Hother.
        intros (date & -> & Hin & ?). apply Hkey. exists date.
        split; [done|]. split; [by right|done].
Qed.

(** The loop body on a group with a valid coordinate: the attempts of
    [retry_request], then the response is recorded without another effect. *)
Lemma fetch_group_valid (wd : gmap (num * num * string) weather) (lat lon : num)
    (dates : list string) (first_date last_date : string) (w : world) :
  validate_coordinates lat lon = true →
  min_str dates = Some first_date →
  max_str dates = Some last_date →
  let params := weather_query lat lon first_date last_date in
  let n := length (calls w) in
  ∃ (f : nat) (r : option response),
    fetch_group wd (lat, lon, dates) w
    = (record_response lat lon dates r wd,
       {| calls := calls w
                   ++ attempt_log WEATHER_API_URL params n (f + if r is Some _ then 1 else 0);
          sleeps := sleeps w ++ replicate f DEFAULT_DELAY |})
    ∧ (∀ i, (i < f)%nat → attempt_fails (http_get (n + i) WEATHER_API_URL params))
    ∧ match r with
      | Some resp => (f < DEFAULT_RETRIES)%nat
                     ∧ http_get (n + f) WEATHER_API_URL params = GetReturns resp
                     ∧ ¬ (400 ≤ status_code resp < 600)
      | None => f = DEFAULT_RETRIES
      end.
Proof.
  intros Hvalid Hmin Hmax params n.
  destruct (retry_request_spec WEATHER_API_URL params DEFAULT_RETRIES DEFAULT_DELAY w)
    as (f & r & Heq & Hfails & Hr).
  exists f, r. split; [|done].
  unfold fetch_group. rewrite Hvalid, Hmin, Hmax.
  unfold bind, lift. cbn [negb of_option]. cbv beta iota.
  fold params. rewrite Heq. done.
Qed.

End WeatherFacts.

(** C2, as stated, fails: a response with a success status and a body that
    is not JSON is not a failed attempt.  It is not retried (one call, no
    sleep) and the decoding error leaves [batch_fetch_weather]. *)
Lemma garbled_body_raises :
  let E := example_externals example_history server_garbled in
  validate_coordinates sao_paulo.1 sao_paulo.2 = true
  ∧ (∀ n p, @http_get E n WEATHER_API_URL p
            = GetReturns {| status_code := 200; content := NotJson |})
  ∧ @batch_fetch_weather E [(sao_paulo, "2024-01-01"%string)] world0
    = (Raise JSONDecodeError,
       {| calls := @attempt_log E WEATHER_API_URL
                     (weather_query sao_paulo.1 sao_paulo.2 "2024-01-01" "2024-01-01") 0 1;
          sleeps := [] |}).
Proof. split; [by vm_compute|]. split; [done|]. by vm_compute. Qed.

(** C2, amended.  An attempt fails when the GET raises or returns an error
    status.  For a group with a valid coordinate, whatever the state of the
    run: (1) the fetch makes at most 3 attempts, all with the query of the
    group, and sleeps 5 after each failed one and at no other time; (2) if
    the first two attempts fail and the third returns a success status with
    a daily series whose value lists cover its dates, the group is fetched
    without error after exactly 3 attempts and every requested date of the
    response is recorded with its values; (3) if the three attempts fail,
    the mapping is returned unchanged after 3 attempts and 3 sleeps, and
    nothing is raised. *)
Theorem weather_retry_policy `{Externals}
    (wd : gmap (num * num * string) weather) (lat lon : num) (dates : list string)
    (first_date last_date : string) (w : world) :
  validate_coordinates lat lon = true →
  min_str dates = Some first_date →
  max_str dates = Some last_date →
  let params := weather_query lat lon first_date last_date in
  let n := length (calls w) in
  let attempt i := http_get (n + i) WEATHER_API_URL params in
  let run := fetch_group wd (lat, lon, dates) w in
  (∃ k f : nat,
      (k ≤ 3)%nat ∧ (f ≤ k)%nat
      ∧ calls run.2 = calls w ++ attempt_log WEATHER_API_URL params n k
      ∧ sleeps run.2 = sleeps w ++ replicate f 5
      ∧ (∀ i, (i < f)%nat → attempt_fails (attempt i))
      ∧ (∀ i, (f ≤ i < k)%nat → ¬ attempt_fails (attempt i)))
  ∧ (attempt_fails (attempt 0%nat) → attempt_fails (attempt 1%nat) →
     ∀ status d times temps precs,
       attempt 2%nat = GetReturns {| status_code := status; content := JsonObject (Some d) |} →
       ¬ (400 ≤ status < 600) →
       time d = Some times →
       temperature_2m_mean d = Some temps →
       precipitation_sum d = Some precs →
       (length times ≤ length temps)%nat →
       (length times ≤ length precs)%nat →
       ∃ wd', run = (Ok wd',
                     {| calls := calls w ++ attempt_log WEATHER_API_URL params n 3;
                        sleeps := sleeps w ++ [5; 5] |})
         ∧ ∀ date, date ∈ times → date ∈ dates →
             ∃ j t p, times !! j = Some date ∧ temps !! j = Some t ∧ precs !! j = Some p
                      ∧ wd' !! (lat, lon, date)
                        = Some {| mean_temp := t; precipitation := p |})
  ∧ (attempt_fails (attempt 0%nat) → attempt_fails (attempt 1%nat) →
     attempt_fails (attempt 2%nat) →
     run = (Ok wd, {| calls := calls w ++ attempt_log WEATHER_API_URL params n 3;
                      sleeps := sleeps w ++ [5; 5; 5] |})).
Proof.
  intros Hvalid Hmin Hmax params n attempt run.
  destruct (fetch_group_valid wd lat lon dates first_date last_date w Hvalid Hmin Hmax)
    as (f & r & Heq & Hfails & Hr).
  fold params n in Heq, Hfails, Hr. fold run in Heq.
  unfold DEFAULT_RETRIES, DEFAULT_DELAY in *.
  split; [|split].
  - exists (f + if r is Some _ then 1 else 0)%nat, f. rewrite Heq. simpl.
    split; [destruct r; [destruct Hr|]; lia|].
    split; [lia|]. split; [done|]. split; [done|]. split; [done|].
    intros i Hi. destruct r as [resp|]; [|lia].
    destruct Hr as (_ & Hget & Hstatus).
    assert (i = f) as -> by lia. unfold attempt. by rewrite Hget.
  - intros Hf0 Hf1 status d times temps precs Hget Hstatus Htimes Htemps Hprecs Hlt Hlp.
    assert (f = 2%nat ∧ r = Some {| status_code := status; content := JsonObject (Some d) |})
      as [-> ->].
    { destruct r as [resp|].
      - destruct Hr as (Hlt3 & Hgetf & Hstatusf).
        destruct f as [|[|[|f]]]; [| | |lia].
        + unfold attempt in Hf0. rewrite Hgetf in Hf0. done.
        + unfold attempt in Hf1. rewrite Hgetf in Hf1. done.
        + unfold attempt in Hget. rewrite Hgetf in Hget. by injection Hget as ->.
      - subst f. specialize (Hfails 2%nat). unfold attempt in Hget.
        rewrite Hget in Hfails. destruct Hstatus. apply Hfails. lia. }
    destruct (record_daily_full lat lon dates d 0 times temps precs wd)
      as (wd' & Hrun & Hall & _); [done..|].
    exists wd'. split.
    + rewrite Heq. simpl. unfold response_ok. simpl.
      rewrite bool_decide_eq_false_2 by done. simpl. rewrite Htimes. simpl.
      by rewrite Hrun.
    + intros date Hin Hd. destruct (Hall date Hin Hd) as (j & t & p & ?). by exists j, t, p.
  - intros Hf0 Hf1 Hf2.
    assert (f = 3%nat ∧ r = None) as [-> ->].
    { destruct r as [resp|]; [|done].
      destruct Hr as (Hlt3 & Hgetf & Hstatusf). exfalso.
      destruct f as [|[|[|f]]]; [| | |lia].
      - unfold attempt in Hf0. rewrite Hgetf in Hf0. done.
      - unfold attempt in Hf1. rewrite Hgetf in Hf1. done.
      - unfold attempt in Hf2. rewrite Hgetf in Hf2. done. }
    rewrite Heq. done.
Qed.

Lemma weather_retry_policy_witness :
  let E := example_externals example_history server_flaky in
  ∃ wd', @fetch_group E ∅ (sao_paulo, ["2024-01-03"; "2024-01-01"]%string) world0
         = (Ok wd',
            {| calls := @attempt_log E WEATHER_API_URL
                          (weather_query sao_paulo.1 sao_paulo.2 "2024-01-01" "2024-01-03") 0 3;
               sleeps := [5; 5] |})
    ∧ wd' !! (sao_paulo, "2024-01-03"%string)
      = Some {| mean_temp := Some (num_of_Z 24); precipitation := Some (num_of_Z 0) |}.
Proof.
  intros E.
  destruct (proj1 (proj2 (@weather_retry_policy E ∅ sao_paulo.1 sao_paulo.2
                   ["2024-01-03"; "2024-01-01"]%string "2024-01-01"%string "2024-01-03"%string
                   world0 eq_refl eq_refl eq_refl)) I ltac:(simpl; lia)
              200 example_daily
              ["2024-01-01"; "2024-01-02"; "2024-01-03"]%string
              [Some (num_frac 45 2); Some (num_frac 231 10); Some (num_of_Z 24)]
              [Some (num_of_Z 0); Some (num_frac 6 5); Some (num_of_Z 0)]
              eq_refl ltac:(lia) eq_refl eq_refl eq_refl ltac:(simpl; lia) ltac:(simpl; lia))
    as (wd' & Hrun & Hall).
  exists wd'. split; [exact Hrun|].
  destruct (Hall "2024-01-03"%string) as (j & t & p & Hj & Ht & Hp & Hwd).
  - set_solver.
  - set_solver.
  - destruct j as [|[|[|j]]]; simpl in Hj; try discriminate.
    simpl in Ht, Hp. injection Ht as <-. injection Hp as <-. exact Hwd.
Defined.

Lemma for_each_cons {A S} (body : S → A → M S) (x : A) (xs : list A) (acc : S) (w : world) :
  for_each body (x :: xs) acc w
  = match body acc x w with
    | (Ok acc', w1) => for_each body xs acc' w1
    | (Raise e, w1) => (Raise e, w1)
    end.
Proof. reflexivity. Qed.

Section WeatherGroups.
Context `{Externals}.

Lemma elem_of_attempt_log url params n k c :
  c ∈ attempt_log url params n k
  ↔ ∃ i, (i < k)%nat
         ∧ c = {| call_url := url; call_params := params;
                  call_outcome := http_get (n + i) url params |}.
Proof.
  unfold attempt_log. rewrite list_elem_of_fmap. split.
  - intros (i & -> & Hi). apply elem_of_seq in Hi. exists i. split; [lia|done].
  - intros (i & Hi & ->). exists i. split; [done|]. apply elem_of_seq. lia.
Qed.


(** ** The coordinate groups *)

Lemma group_append_keys key date (groups : list (num * num * list string)) :
  (group_append key date groups).*1
  = if decide (key ∈ groups.*1) then groups.*1 else groups.*1 ++ [key].
Proof.
  induction groups as [|[k ds] rest IH]; [done|]. cbn [group_append].
  destruct (decide (k = key)) as [->|Hne]; rewrite !fmap_cons; cbn [fst].
  - rewrite decide_True; [done|left].
  - rewrite IH. destruct (decide (key ∈ rest.*1)) as [Hin|Hout].
    + rewrite decide_True; [done|by right].
    + rewrite decide_False; [done|]. intros [?|?]%elem_of_cons; done.
Qed.

Lemma group_append_NoDup key date (groups : list (num * num * list string)) :
  NoDup groups.*1 → NoDup (group_append key date groups).*1.
Proof.
  intros Hnd. rewrite group_append_keys. case_decide; [done|].
  apply NoDup_app. split; [done|]. split; [|apply NoDup_singleton].
  intros k Hk Hk'. apply list_elem_of_singleton in Hk'. by subst.
Qed.

Lemma group_append_dates key date (groups : list (num * num * list string)) k d :
  (∃ ds, (k, ds) ∈ group_append key date groups ∧ d ∈ ds)
  ↔ (∃ ds, (k, ds) ∈ groups ∧ d ∈ ds) ∨ (k = key ∧ d = date).
Proof.
  induction groups as [|[k0 ds0] rest IH]; cbn [group_append].
  - split.
    + intros (ds & Hin & Hd). apply list_elem_of_singleton in Hin. injection Hin as -> ->.
      apply list_elem_of_singleton in Hd. by right.
    + intros [(ds & Hin & _)|[-> ->]]; [by apply elem_of_nil in Hin|].
      exists [date]. split; left.
  - destruct (decide (k0 = key)) as [->|Hne].
    + split.
      * intros (ds & Hin & Hd). apply elem_of_cons in Hin as [Heq|Hin].
        -- injection Heq as -> ->. apply elem_of_app in Hd as [Hd|Hd].
           ++ left. exists ds0. split; [left|done].
           ++ apply list_elem_of_singleton in Hd. by right.
        -- left. exists ds. split; [by right|done].
      * intros [(ds & Hin & Hd)|[-> ->]].
        -- apply elem_of_cons in Hin as [Heq|Hin].
           ++ injection Heq as -> ->. exists (ds0 ++ [date]).
              split; [left|]. apply elem_of_app. by left.
           ++ exists ds. split; [by right|done].
        -- exists (ds0 ++ [date]). split; [left|]. apply elem_of_app. right. left.
    + split.
      * intros (ds & Hin & Hd). apply elem_of_cons in Hin as [Heq|Hin].
        -- injection Heq as -> ->. left. exists ds0. split; [left|done].
        -- destruct (proj1 IH) as [(ds' & ? & ?)|?]; [by exists ds| |by right].
           left. exists ds'. split; [by right|done].
      * intros [(ds & Hin & Hd)|Hnew].
        -- apply elem_of_cons in Hin as [Heq|Hin].
           ++ injection Heq as -> ->. exists ds0. split; [left|done].
           ++ destruct (proj2 IH) as (ds' & ? & ?); [left; by exists ds|].
              exists ds'. split; [by right|done].
        -- destruct (proj2 IH) as (ds' & ? & ?); [by right|].
           exists ds'. split; [by right|done].
Qed.

Lemma location_groups_spec (location_dates : list (num * num * string)) :
  NoDup (location_groups location_dates).*1
  ∧ ∀ k d, (∃ ds, (k, ds) ∈ location_groups location_dates ∧ d ∈ ds)
           ↔ (k, d) ∈ location_dates.
Proof.
  unfold location_groups.
  induction location_dates as [|[k0 d0] rest IH] using rev_ind.
  - split; [constructor|]. intros k d. split.
    + intros (ds & Hin & _). by apply elem_of_nil in Hin.
    + intros Hin. by apply elem_of_nil in Hin.
  - destruct IH as [Hnd Hdates]. rewrite foldl_app. simpl. split.
    + by apply group_append_NoDup.
    + intros k d. rewrite group_append_dates, Hdates, elem_of_app, list_elem_of_singleton.
      split; (intros [?|Hnew]; [by left|right]); [by destruct Hnew as [-> ->]|by injection Hnew].
Qed.

(** ** The loop over the groups *)




End WeatherGroups.



(** * Relational Joiner *)

Section JoinFacts.
Context {A B : Type}.




Lemma Forall2_filter_omap (f : A → option B) (l : list A) :
  Forall2 (λ x y, f x = Some y) (filter (λ x, is_Some (f x)) l) (omap f l).
Proof.
  induction l as [|x l IH]; [constructor|].
  rewrite filter_cons. simpl. destruct (f x) as [y|] eqn:Hfx.
  - rewrite decide_True by eauto. by constructor.
  - rewrite decide_False; [done|]. intros [? ?]. done.
Qed.

Lemma omap_fmap {C} (g : C → A) (f : A → option B) (l : list C) :
  omap f (g <$> l) = omap (λ x, f (g x)) l.
Proof.
  induction l as [|x l IH]; [done|]. rewrite fmap_cons. simpl.
  destruct (f (g x)); by f_equal.
Qed.

End JoinFacts.

(** The rows of the inner merge: one per pair of an order line and an order
    with the same [order_id]. *)
Lemma elem_of_merge_order_items_orders items ords (r : orders_items_row) :
  r ∈ merge_order_items_orders items ords
  ↔ ∃ i o, i ∈ items ∧ o ∈ ords ∧ orders.order_id o = order_items.order_id i
           ∧ r = {| oi_order_id := order_items.order_id i;
                    oi_seller_id := order_items.seller_id i;
                    oi_price := order_items.price i;
                    oi_freight_value := order_items.freight_value i;
                    oi_customer_id := orders.customer_id o;
                    oi_order_purchase_timestamp := orders.order_purchase_timestamp o;
                    oi_order_delivered_customer_date :=
                      orders.order_delivered_customer_date o |}.
Proof.
  unfold merge_order_items_orders. rewrite list_elem_of_bind. split.
  - intros (i & Hr & Hi). apply list_elem_of_bind in Hr as (o & Hr & Ho).
    apply list_elem_of_filter in Ho as [Heq Ho]. apply list_elem_of_singleton in Hr.
    by exists i, o.
  - intros (i & o & Hi & Ho & Heq & ->). exists i. split; [|done].
    apply list_elem_of_bind. exists o. split; [left|]. by apply list_elem_of_filter.
Qed.


Lemma elem_of_order_keys orders_items (k : order_key) :
  k ∈ order_keys orders_items ↔ ∃ r, r ∈ orders_items ∧ group_key r = Some k.
Proof.
  unfold order_keys. rewrite merge_sort_Permutation, elem_of_remove_dups.
  apply list_elem_of_omap.
Qed.





(** * Enrichment Merger *)

Section EnrichmentFacts.
Context `{Externals}.

(** The frame operations of [enrich_data], row by row. *)
Lemma filter_attach_omap (sp500_prices : gmap string (option num))
    (weather_data : gmap (num * num * string) weather) (df : list joined.row) :
  filter complete (attach sp500_prices weather_data
                     <$> omap dropna_timestamps (localize <$> df))
  = omap (enrich_row sp500_prices weather_data) df.
Proof.
  induction df as [|j df IH]; [done|].
  rewrite fmap_cons. cbn [omap list_omap]. unfold enrich_row at 1.
  destruct (dropna_timestamps (localize j)) as [r|]; simpl; [|exact IH].
  rewrite filter_cons. destruct (decide (complete _)); [f_equal|]; exact IH.
Qed.

(** When [enrich_data] returns, its rows are those of [enrich_row] under the
    two mappings that the fetchers returned. *)
Lemma enrich_data_rows (df : list joined.row) (w w' : world) (out : list enriched.row) :
  enrich_data df w = (Ok out, w') →
  ∃ (sp500_prices : gmap string (option num))
    (weather_data : gmap (num * num * string) weather),
    let dated := omap dropna_timestamps (localize <$> df) in
    batch_fetch_sp500 (unique (purchase_date <$> dated)) = Ok sp500_prices
    ∧ batch_fetch_weather (weather_key <$> dated) w = (Ok weather_data, w')
    ∧ out = omap (enrich_row sp500_prices weather_data) df.
Proof.
  unfold enrich_data, bind, lift, ret. intros Hrun.
  destruct (batch_fetch_sp500 _) as [sp500_prices|e]; [|done].
  destruct (batch_fetch_weather _ w) as [[weather_data|e] w1]; [|done].
  injection Hrun as <- <-. exists sp500_prices, weather_data.
  split; [done|]. split; [done|]. apply filter_attach_omap.
Qed.

Lemma enrich_row_Some (sp500_prices : gmap string (option num))
    (weather_data : gmap (num * num * string) weather) (j : joined.row) (e : enriched.row) :
  enrich_row sp500_prices weather_data j = Some e →
  complete e ∧ enriches j e ∧ ¬ unresolved sp500_prices weather_data j.
Proof.
  unfold enrich_row, dropna_timestamps, localize, unresolved. simpl.
  destruct (tz_localize_utc (joined.order_purchase_timestamp j)) as [p|] eqn:Hp; [|done].
  destruct (tz_localize_utc (joined.order_delivered_customer_date j)) as [d|] eqn:Hd; [|done].
  simpl. case_decide as Hcomplete; [|done]. intros [= <-].
  split; [done|]. split.
  - unfold enriches. simpl. by rewrite Hp, Hd.
  - destruct Hcomplete as (_ & _ & Hm & Ht & Hr). simpl in Hm, Ht, Hr.
    unfold purchase_date, weather_key in *. simpl in *.
    intros [Hnone|[Hnone|Hnone]]; rewrite Hnone in *; by eapply is_Some_None.
Qed.

(** An enriched row determines the lookups of every joined row it could come
    from: such a row is resolved. *)
Lemma enriches_resolved (sp500_prices : gmap string (option num))
    (weather_data : gmap (num * num * string) weather)
    (j j' : joined.row) (e : enriched.row) :
  enrich_row sp500_prices weather_data j' = Some e →
  enriches j e →
  ¬ unresolved sp500_prices weather_data j.
Proof.
  intros Hrow Hj. destruct (enrich_row_Some _ _ _ _ Hrow) as (_ & Hj' & Hres).
  unfold enriches in Hj, Hj'. unfold unresolved in *.
  destruct Hj as (_ & _ & _ & Hlat & Hlon & Hp & Hd).
  destruct Hj' as (_ & _ & _ & Hlat' & Hlon' & Hp' & Hd').
  rewrite <- Hp, <- Hd, <- Hlat, <- Hlon.
  rewrite <- Hp', <- Hd', <- Hlat', <- Hlon' in Hres. done.
Qed.

End EnrichmentFacts.

(** C7. When the Enrichment Merger returns, every row of its output has all
    of its fields present, and a joined row that is unresolved (a timestamp
    that does not localize, no market price for the purchase date, or no
    weather value for the delivery coordinate and date, under the mappings
    [sp500_prices] and [weather_data] that the two fetchers returned) has no
    enriched row in the output at all. *)
Theorem enrich_data_rows_complete `{Externals}
    (df : list joined.row) (w w' : world) (out : list enriched.row) :
  enrich_data df w = (Ok out, w') →
  ∃ (sp500_prices : gmap string (option num))
    (weather_data : gmap (num * num * string) weather),
    let dated := omap dropna_timestamps (localize <$> df) in
    batch_fetch_sp500 (unique (purchase_date <$> dated)) = Ok sp500_prices
    ∧ batch_fetch_weather (weather_key <$> dated) w = (Ok weather_data, w')
    ∧ (∀ e, e ∈ out → complete e)
    ∧ (∀ j, j ∈ df → unresolved sp500_prices weather_data j →
         ∀ e, e ∈ out → ¬ enriches j e).
Proof.
  intros Hrun.
  destruct (enrich_data_rows df w w' out Hrun) as (sp500_prices & weather_data & Hsp & Hwd & ->).
  exists sp500_prices, weather_data. split; [done|]. split; [done|]. split.
  - intros e (j & _ & Hrow)%list_elem_of_omap. by apply enrich_row_Some in Hrow as [? _].
  - intros j _ Hunresolved e (j' & _ & Hrow)%list_elem_of_omap Hj.
    by apply (enriches_resolved _ _ j j' e Hrow Hj).
Qed.

Lemma enrich_data_rows_complete_witness :
  let E := example_externals example_history server_flaky in
  let run := @enrich_data E example_joined world0 in
  let out := match run.1 with Ok out => out | Raise _ => [] end in
  ∃ (sp500_prices : gmap string (option num))
    (weather_data : gmap (num * num * string) weather),
    let dated := omap dropna_timestamps (@localize E <$> example_joined) in
    @batch_fetch_sp500 E (unique (@purchase_date E <$> dated)) = Ok sp500_prices
    ∧ @batch_fetch_weather E (@weather_key E <$> dated) world0 = (Ok weather_data, run.2)
    ∧ (∀ e, e ∈ out → complete e)
    ∧ (∀ j, j ∈ example_joined → @unresolved E sp500_prices weather_data j →
         ∀ e, e ∈ out → ¬ @enriches E j e).
Proof.
  intros E run out.
  apply (@enrich_data_rows_complete E example_joined world0 run.2 out).
  vm_compute. reflexivity.
Defined.

(** C10. When the Enrichment Merger returns, its rows correspond one for
    one, in order, to a sub-sequence of the joined rows; the row of a joined
    row has the same order_id, seller_id, total_order_value, delivery
    latitude and delivery longitude, and its two timestamps are those of the
    joined row localized to the configured time zone and converted to UTC. *)
Theorem enrich_data_preserves_joined_fields `{Externals}
    (df : list joined.row) (w w' : world) (out : list enriched.row) :
  enrich_data df w = (Ok out, w') →
  ∃ kept : list joined.row, sublist kept df ∧ Forall2 enriches kept out.
Proof.
  intros Hrun.
  destruct (enrich_data_rows df w w' out Hrun) as (sp500_prices & weather_data & _ & _ & ->).
  exists (filter (λ j, is_Some (enrich_row sp500_prices weather_data j)) df).
  split; [apply sublist_filter|].
  eapply Forall2_impl; [apply Forall2_filter_omap|].
  intros j e Hrow. simpl in Hrow. by apply enrich_row_Some in Hrow as (_ & ? & _).
Qed.

Lemma enrich_data_preserves_joined_fields_witness :
  let E := example_externals example_history server_flaky in
  let run := @enrich_data E example_joined world0 in
  let out := match run.1 with Ok out => out | Raise _ => [] end in
  ∃ kept : list joined.row, sublist kept example_joined ∧ Forall2 (@enriches E) kept out.
Proof.
  intros E run out.
  apply (@enrich_data_preserves_joined_fields E example_joined world0 run.2 out).
  vm_compute. reflexivity.
Defined.

(** * The pipeline *)

(** A handler that only re-raises leaves the computation as it is. *)
Lemma try_except_reraise {A} (m : M A) (w : world) :
  try_except m (λ e, raise e) w = m w.
Proof. unfold try_except, raise. by destruct (m w) as [[a|e] w1]. Qed.

(** C9. If any of the five stages of the pipeline raises, the run ends
    there: [main]'s control structure returns the same exception, in the
    world that the failing stage left, so that no later stage has run. *)
Theorem pipeline_reraises_stage_failure {Raw Geo Joined Enriched : Type}
    (stage_load : M Raw) (stage_geo : Raw → M Geo) (stage_join : Raw → Geo → M Joined)
    (stage_enrich : Joined → M Enriched) (stage_output : Enriched → M unit)
    (w : world) (e : exn) (w' : world) :
  stage_raises stage_load stage_geo stage_join stage_enrich stage_output w e w' →
  pipeline stage_load stage_geo stage_join stage_enrich stage_output w = (Raise e, w').
Proof.
  intros Hraises. unfold pipeline. rewrite try_except_reraise. unfold bind.
  destruct Hraises as [Hl | raw w1 Hl Hg | raw w1 g w2 Hl Hg Hj
                       | raw w1 g w2 j w3 Hl Hg Hj He
                       | raw w1 g w2 j w3 en w4 Hl Hg Hj He Ho].
  - by rewrite Hl.
  - by rewrite Hl, Hg.
  - by rewrite Hl, Hg, Hj.
  - by rewrite Hl, Hg, Hj, He.
  - by rewrite Hl, Hg, Hj, He, Ho.
Qed.

Lemma pipeline_reraises_stage_failure_witness :
  let E := example_externals example_history server_garbled in
  @main E (ret example_olist_data) to_csv_ok world0
  = (Raise JSONDecodeError,
     {| calls := @attempt_log E WEATHER_API_URL
                   (weather_query sao_paulo.1 sao_paulo.2 "2024-01-03" "2024-01-03") 0 1;
        sleeps := [] |}).
Proof.
  intros E. unfold main.
  apply pipeline_reraises_stage_failure.
  eapply enrich_raises; [reflexivity | reflexivity | reflexivity | ].
  vm_compute. reflexivity.
Defined.

(** [main] itself: a failure of the loader, of the enrichment or of the
    writer is re-raised as it is.  (Coordinate processing and joining are
    total functions of well-typed frames.) *)
Lemma main_reraises `{Externals} (load_olist_data : M olist_data)
    (to_csv : list enriched.row → string → M unit) (w : world) (e : exn) (w' : world) :
  (load_olist_data w = (Raise e, w')
   ∨ ∃ raw w1,
       load_olist_data w = (Ok raw, w1)
       ∧ let joined_data :=
           join_olist_data (sellers raw) (orders raw) (order_items raw)
             (process_geolocations (geolocations raw)) (customers raw) in
         (enrich_data joined_data w1 = (Raise e, w')
          ∨ ∃ enriched_data w2,
              enrich_data joined_data w1 = (Ok enriched_data, w2)
              ∧ to_csv enriched_data OUTPUT_CSV w2 = (Raise e, w'))) →
  main load_olist_data to_csv w = (Raise e, w').
Proof.
  unfold main, pipeline. rewrite try_except_reraise. unfold bind, ret.
  intros [Hl | (raw & w1 & Hl & [He | (en & w2 & He & Ho)])].
  - by rewrite Hl.
  - by rewrite Hl, He.
  - by rewrite Hl, He, Ho.
Qed.

(** * Worked examples *)

(** The two samples of prefix 01310 average to (-23.55, -46.63), one row. *)
Example process_geolocations_example :
  process_geolocations example_geolocations
  = [ {| geolocation_zip_code_prefix := "01310";
         geolocation_lat := sao_paulo.1; geolocation_lng := sao_paulo.2;
         geolocation_city := "sao paulo"; geolocation_state := "SP" |} ]%string.
Proof. vm_compute. reflexivity. Qed.

(** A group whose mean latitude is out of range yields no row and no error. *)
Example process_geolocations_drops_invalid_mean :
  process_geolocations
    [ {| geolocation_zip_code_prefix := "00000"; geolocation_lat := num_of_Z 80;
         geolocation_lng := num_of_Z 0; geolocation_city := "x"; geolocation_state := "X" |};
      {| geolocation_zip_code_prefix := "00000"; geolocation_lat := num_of_Z 120;
         geolocation_lng := num_of_Z 0; geolocation_city := "x"; geolocation_state := "X" |} ]%string
  = [].
Proof. vm_compute. reflexivity. Qed.

(** Order o1 (price 50, freight 10) resolves to the coordinate of its
    customer; order o2, whose customer has an unknown zip prefix, is dropped. *)
Example join_olist_data_example :
  join_olist_data [] example_orders example_order_items
    (process_geolocations example_geolocations) example_customers
  = [ example_joined_row "o1" (midnight 19723 + 12 * 3600) (midnight 19725 + 10 * 3600) ].
Proof. vm_compute. reflexivity. Qed.

(** Without the unique customer id of the data model the left merge repeats
    the aggregate row once per matching customer row. *)
Example join_olist_data_repeated_customer :
  length (join_olist_data [] example_orders example_order_items
            (process_geolocations example_geolocations)
            (example_customers ++ example_customers)) = 2%nat.
Proof. vm_compute. reflexivity. Qed.

(** Of the three joined rows only o1 is enriched: o3 has a purchase time
    that does not exist in the zone, o4 a delivery date that the weather
    response does not cover. *)
Example enrich_data_example :
  let E := example_externals example_history server_flaky in
  (@enrich_data E example_joined world0).1
  = Ok [ {| enriched.order_id := "o1"; enriched.seller_id := "s1";
            enriched.order_purchase_timestamp := Some (midnight 19723 + 15 * 3600);
            enriched.order_delivered_customer_date := Some (midnight 19725 + 13 * 3600);
            enriched.total_order_value := num_of_Z 60;
            enriched.market_sentiment_on_purchase_date := Some (num_of_Z 100);
            enriched.delivery_location_latitude := sao_paulo.1;
            enriched.delivery_location_longitude := sao_paulo.2;
            enriched.delivery_date_mean_temp := Some (num_of_Z 24);
            enriched.delivery_date_precipitation_sum := Some (num_of_Z 0) |} ]%string.
Proof. vm_compute. reflexivity. Qed.

(** With the server down the three attempts fail, the weather mapping is
    empty and every row is dropped, without error. *)
Example enrich_data_server_down :
  let E := example_externals example_history server_down in
  @enrich_data E example_joined world0
  = (Ok [], {| calls := @attempt_log E WEATHER_API_URL
                          (weather_query sao_paulo.1 sao_paulo.2 "2024-01-03" "2024-01-04") 0 3;
               sleeps := [5; 5; 5] |}).
Proof. vm_compute. reflexivity. Qed.

(** A loader that raises ends [main] at once with its exception. *)
Example main_missing_input :
  let E := example_externals example_history server_flaky in
  @main E load_missing_file to_csv_ok world0 = (Raise (OtherError "FileNotFoundError"), world0).
Proof. vm_compute. reflexivity. Qed.

(** * Further properties of the Market Series Fetcher *)

Section MarketExtras.
Context `{Externals}.

(** The result in terms of the fetched series. *)
Lemma batch_fetch_sp500_fetched (dates : list string) :
  batch_fetch_sp500 dates
  = match fetched_series dates with
    | Some (row :: hist) => Ok (fill_dates (close_to_dict (row :: hist)) dates None ∅)
    | _ => Ok ∅
    end.
Proof.
  unfold batch_fetch_sp500, fetch_sp500, fetched_series.
  destruct (min_str dates) as [first_date|]; [|done]. simpl.
  destruct (max_str dates) as [last_date|]; [|done]. simpl.
  destruct (strptime last_date) as [t|]; [|done]. simpl.
  destruct (history first_date (t + one_day)) as [[|row hist]|e]; done.
Qed.

(** The entry of a date after the loop is the price carried at its last
    position: the price of the nearest date, at or before that position in
    the order of supply, that has a direct entry in the series. *)
Lemma fill_dates_last_position sp500_data (before after : list string) (d : string)
    (last_price : option num) (date_price_map : gmap string (option num)) :
  d ∉ after →
  ∃ v, fill_dates sp500_data (before ++ d :: after) last_price date_price_map !! d = Some v
       ∧ (v = last_price ∧ (∀ x, x ∈ before ++ [d] → sp500_data !! x = None)
          ∨ ∃ a k b p, before ++ [d] = a ++ k :: b ∧ sp500_data !! k = Some p
                       ∧ (∀ x, x ∈ b → sp500_data !! x = None) ∧ v = Some p).
Proof.
  intros Hd. revert last_price date_price_map.
  induction before as [|x rest IH]; intros last_price m; simpl.
  - rewrite fill_dates_not_visited by done. rewrite lookup_insert_eq.
    eexists. split; [done|]. destruct (sp500_data !! d) as [p|] eqn:Hp.
    + right. exists [], d, [], p. split; [done|]. split; [done|]. split; [|done].
      intros x Hx. by apply elem_of_nil in Hx.
    + left. split; [done|]. intros x Hx. apply list_elem_of_singleton in Hx. by subst.
  - destruct (IH (match sp500_data !! x with Some p => Some p | None => last_price end)
                 (<[x := match sp500_data !! x with Some p => Some p | None => last_price end]> m))
      as (v & Hv & Hcases).
    exists v. split; [done|].
    destruct Hcases as [[-> Hnone] | (a & k & b & p & Heq & Hk & Hb & ->)].
    + destruct (sp500_data !! x) as [p|] eqn:Hx.
      * right. exists [], x, (rest ++ [d]), p. done.
      * left. split; [done|]. intros y [->|Hy]%elem_of_cons; [done|]. by apply Hnone.
    + right. exists (x :: a), k, b, p. simpl. rewrite Heq. done.
Qed.

Lemma close_to_dict_values (hist : list (Z * num)) (k : string) (p : num) :
  close_to_dict hist !! k = Some p → ∃ row, row ∈ hist ∧ strftime row.1 = k ∧ row.2 = p.
Proof.
  unfold close_to_dict.
  assert (∀ acc : gmap string num,
    foldl (λ m row, <[strftime row.1 := row.2]> m) acc hist !! k = Some p →
    acc !! k = Some p ∨ ∃ row, row ∈ hist ∧ strftime row.1 = k ∧ row.2 = p) as Hgen.
  { induction hist as [|row hist IH]; intros acc Hk; simpl in Hk; [by left|].
    destruct (IH _ Hk) as [Hacc | (row' & Hin & Heq & Hp)].
    - destruct (decide (strftime row.1 = k)) as [Heq|Hne].
      + subst k. rewrite lookup_insert_eq in Hacc. injection Hacc as Hp.
        right. exists row. split; [left|done].
      + rewrite lookup_insert_ne in Hacc by done. by left.
    - right. exists row'. split; [by right|done]. }
  intros Hk. destruct (Hgen ∅ Hk) as [Hempty|?]; [|done].
  by rewrite lookup_empty in Hempty.
Qed.

End MarketExtras.

(** X1. When the data source returns a non-empty series, the keys of the
    mapping returned by the Market Series Fetcher are exactly the requested
    dates. *)
Theorem batch_fetch_sp500_keys `{Externals} (dates : list string) (hist : list (Z * num)) :
  fetched_series dates = Some hist →
  hist ≠ [] →
  ∃ m, batch_fetch_sp500 dates = Ok m ∧ ∀ d, is_Some (m !! d) ↔ d ∈ dates.
Proof.
  intros Hfetched Hne. rewrite batch_fetch_sp500_fetched, Hfetched.
  destruct hist as [|row hist]; [done|]. eexists. split; [done|].
  intros d. destruct (decide (d ∈ dates)) as [Hin|Hout].
  - split; [done|]. intros _.
    apply list_elem_of_split_r in Hin as (before & after & -> & Hafter).
    destruct (fill_dates_last_position (close_to_dict (row :: hist)) before after d None ∅ Hafter)
      as (v & -> & _). done.
  - rewrite fill_dates_not_visited, lookup_empty by done. split; [|done].
    intros [? ?]. done.
Qed.

(** X2. The price of a requested date is the close, in the fetched series,
    of the nearest date at or before its last position in the order of
    supply that has a direct entry; it is null when there is none.  In
    particular a requested date with a direct entry always gets its own
    close, whatever the order. *)
Theorem batch_fetch_sp500_supply_order `{Externals}
    (before after : list string) (d : string) (hist : list (Z * num)) :
  let dates := before ++ d :: after in
  let sp500_data := close_to_dict hist in
  fetched_series dates = Some hist →
  hist ≠ [] →
  d ∉ after →
  ∃ m v, batch_fetch_sp500 dates = Ok m ∧ m !! d = Some v
    ∧ (v = None ∧ (∀ x, x ∈ before ++ [d] → sp500_data !! x = None)
       ∨ ∃ a k b p, before ++ [d] = a ++ k :: b ∧ sp500_data !! k = Some p
                    ∧ (∀ x, x ∈ b → sp500_data !! x = None) ∧ v = Some p)
    ∧ (∀ p, sp500_data !! d = Some p → v = Some p).
Proof.
  intros dates sp500_data Hfetched Hne Hafter.
  rewrite batch_fetch_sp500_fetched, Hfetched.
  destruct hist as [|row hist]; [done|].
  destruct (fill_dates_last_position sp500_data before after d None ∅ Hafter)
    as (v & Hv & Hcases).
  eexists _, v. split; [done|]. split; [done|]. split; [done|].
  intros p Hp. destruct Hcases as [[_ Hnone] | (a & k & b & q & Heq & Hk & Hb & ->)].
  - rewrite Hnone in Hp; [done|]. apply elem_of_app. right. left.
  - destruct b as [|y b _] using rev_ind.
    + apply app_inj_tail in Heq as [_ ->]. congruence.
    + rewrite app_comm_cons, app_assoc in Heq. apply app_inj_tail in Heq as [_ ->].
      rewrite Hb in Hp; [done|]. apply elem_of_app. right. left.
Qed.

(** X3. The Market Series Fetcher never invents a price: a non-null value of
    the returned mapping is the close of a row of the fetched series whose
    date was requested. *)
Theorem batch_fetch_sp500_prices_from_series `{Externals}
    (dates : list string) (hist : list (Z * num)) (m : gmap string (option num))
    (d : string) (p : num) :
  fetched_series dates = Some hist →
  batch_fetch_sp500 dates = Ok m →
  m !! d = Some (Some p) →
  ∃ row, row ∈ hist ∧ row.2 = p ∧ strftime row.1 ∈ dates.
Proof.
  intros Hfetched Hrun Hd. rewrite batch_fetch_sp500_fetched, Hfetched in Hrun.
  destruct hist as [|row hist]; [injection Hrun as <-; by rewrite lookup_empty in Hd|].
  injection Hrun as <-.
  destruct (decide (d ∈ dates)) as [Hin|Hout]; cycle 1.
  { rewrite fill_dates_not_visited, lookup_empty in Hd by done. done. }
  apply list_elem_of_split_r in Hin as (before & after & -> & Hafter).
  destruct (fill_dates_last_position (close_to_dict (row :: hist)) before after d None ∅ Hafter)
    as (v & Hv & Hcases).
  rewrite Hv in Hd. injection Hd as ->.
  destruct Hcases as [[? _] | (a & k & b & q & Heq & Hk & _ & [= ->])]; [done|].
  apply close_to_dict_values in Hk as (row' & Hrow & Hkey & Hp).
  exists row'. split; [done|]. split; [done|]. rewrite Hkey.
  assert (k ∈ before ++ [d]) as Hin by (rewrite Heq; apply elem_of_app; right; left).
  apply elem_of_app in Hin as [Hin|Hin]; apply elem_of_app; [by left|].
  right. apply list_elem_of_singleton in Hin. subst. left.
Qed.

(** X4. Without a usable request nothing is fetched and the mapping is empty:
    no date at all, or a latest date that is not of the form YYYY-MM-DD. *)
Theorem batch_fetch_sp500_no_range `{Externals} (dates : list string) :
  dates = [] ∨ (∃ last_date, max_str dates = Some last_date ∧ strptime last_date = None) →
  batch_fetch_sp500 dates = Ok ∅.
Proof.
  intros Hcase. rewrite batch_fetch_sp500_fetched. unfold fetched_series.
  destruct Hcase as [-> | (last_date & Hmax & Hparse)]; [done|].
  destruct (min_str dates); [|done]. simpl. rewrite Hmax. simpl. by rewrite Hparse.
Qed.

Lemma batch_fetch_sp500_keys_witness :
  let E := example_externals example_history server_down in
  let dates := ["2024-01-04"; "2024-01-01"; "2024-01-02"; "2024-01-03"]%string in
  ∃ m, @batch_fetch_sp500 E dates = Ok m ∧ ∀ d, is_Some (m !! d) ↔ d ∈ dates.
Proof.
  intros E dates.
  apply (@batch_fetch_sp500_keys E dates
           [ (midnight 19723, num_of_Z 100); (midnight 19725, num_of_Z 102) ]).
  - vm_compute. reflexivity.
  - discriminate.
Defined.

Lemma batch_fetch_sp500_supply_order_witness :
  let E := example_externals example_history server_down in
  ∃ m v, @batch_fetch_sp500 E ["2024-01-04"; "2024-01-01"; "2024-01-02"; "2024-01-03"]%string
         = Ok m ∧ m !! "2024-01-02"%string = Some v.
Proof.
  intros E.
  destruct (@batch_fetch_sp500_supply_order E
              ["2024-01-04"; "2024-01-01"]%string ["2024-01-03"]%string "2024-01-02"%string
              [ (midnight 19723, num_of_Z 100); (midnight 19725, num_of_Z 102) ])
    as (m & v & Hrun & Hv & _).
  - vm_compute. reflexivity.
  - discriminate.
  - apply (bool_decide_unpack _). vm_compute. exact I.
  - exists m, v. split; [exact Hrun|exact Hv].
Defined.

Lemma batch_fetch_sp500_prices_from_series_witness :
  let E := example_externals example_history server_down in
  let hist := [ (midnight 19723, num_of_Z 100); (midnight 19725, num_of_Z 102) ] in
  let dates := ["2024-01-01"; "2024-01-02"]%string in
  ∃ row, row ∈ hist ∧ row.2 = num_of_Z 100 ∧ @strftime E row.1 ∈ dates.
Proof.
  intros E hist dates.
  apply (@batch_fetch_sp500_prices_from_series E dates hist
           (match @batch_fetch_sp500 E dates with Ok m => m | Raise _ => ∅ end)
           "2024-01-02"%string (num_of_Z 100)).
  - vm_compute. reflexivity.
  - vm_compute. reflexivity.
  - vm_compute. reflexivity.
Defined.

Lemma batch_fetch_sp500_no_range_witness :
  let E := example_externals example_history server_down in
  @batch_fetch_sp500 E ["2024-01-01"; "soon"]%string = Ok ∅.
Proof.
  intros E. apply (@batch_fetch_sp500_no_range E). right.
  exists "soon"%string. split; vm_compute; reflexivity.
Defined.

(** * Further properties of the Weather Series Fetcher *)

Lemma str_lt_false (a b : string) : ¬ str_lt a b → (b ≤ a)%string.
Proof.
  intros Hnot. destruct (decide (a = b)) as [->|Hne]; [done|].
  destruct (total String.le a b) as [Hle|Hle]; [|done].
  destruct Hnot. by split.
Qed.

Lemma min_str_spec (xs : list string) (m : string) :
  min_str xs = Some m → m ∈ xs ∧ ∀ x, x ∈ xs → (m ≤ x)%string.
Proof.
  destruct xs as [|x0 xs]; [done|]. simpl. intros [= <-].
  revert x0. induction xs as [|y xs IH]; intros x0; simpl.
  - split; [left|]. intros x Hx. apply list_elem_of_singleton in Hx. by subst.
  - case_bool_decide as Hlt.
    + destruct (IH y) as [Hin Hle]. split; [by right|].
      intros x [->|Hx]%elem_of_cons; [|by apply Hle].
      transitivity y; [apply Hle; left|apply Hlt].
    + destruct (IH x0) as [Hin Hle]. split.
      * apply elem_of_cons in Hin as [->|Hin]; [left|right; by right].
      * intros x [->|[->|Hx]%elem_of_cons]%elem_of_cons.
        -- apply Hle. left.
        -- transitivity x0; [apply Hle; left|by apply str_lt_false].
        -- apply Hle. by right.
Qed.

Lemma max_str_spec (xs : list string) (m : string) :
  max_str xs = Some m → m ∈ xs ∧ ∀ x, x ∈ xs → (x ≤ m)%string.
Proof.
  destruct xs as [|x0 xs]; [done|]. simpl. intros [= <-].
  revert x0. induction xs as [|y xs IH]; intros x0; simpl.
  - split; [left|]. intros x Hx. apply list_elem_of_singleton in Hx. by subst.
  - case_bool_decide as Hlt.
    + destruct (IH y) as [Hin Hle]. split; [by right|].
      intros x [->|Hx]%elem_of_cons; [|by apply Hle].
      transitivity y; [apply Hlt|apply Hle; left].
    + destruct (IH x0) as [Hin Hle]. split.
      * apply elem_of_cons in Hin as [->|Hin]; [left|right; by right].
      * intros x [->|[->|Hx]%elem_of_cons]%elem_of_cons.
        -- apply Hle. left.
        -- transitivity x0; [by apply str_lt_false|apply Hle; left].
        -- apply Hle. by right.
Qed.

(** Two induction principles for a loop: one for a property of the world
    that every pass keeps whatever its outcome, one for a property of the
    accumulator and the world that every pass that returns keeps. *)
Lemma for_each_world_invariant {A S} (body : S → A → M S)
    (W : list A → world → Prop) (all : list A) :
  (∀ seen x rest acc w res w',
     all = seen ++ x :: rest → W seen w → body acc x w = (res, w') → W (seen ++ [x]) w') →
  (∀ seen x rest w, all = seen ++ x :: rest → W seen w → W (seen ++ [x]) w) →
  ∀ acc w res w', W [] w → for_each body all acc w = (res, w') → W all w'.
Proof.
  intros Hstep Hmono.
  assert (∀ rest seen w, all = seen ++ rest → W seen w → W all w) as Hskip.
  { induction rest as [|x rest IH]; intros seen w Hall Hw.
    - rewrite app_nil_r in Hall. by subst.
    - apply (IH (seen ++ [x])); [by rewrite <- app_assoc|]. by eapply Hmono. }
  assert (∀ rest seen acc w res w',
            all = seen ++ rest → W seen w → for_each body rest acc w = (res, w') → W all w')
    as Hgen.
  { induction rest as [|x rest IH]; intros seen acc w res w' Hall Hw Hrun.
    - injection Hrun as <- <-. rewrite app_nil_r in Hall. by subst.
    - rewrite for_each_cons in Hrun.
      destruct (body acc x w) as [[acc1|e] w1] eqn:Hbody.
      + apply (IH (seen ++ [x]) acc1 w1 res w'); [by rewrite <- app_assoc| |done].
        by eapply Hstep.
      + injection Hrun as <- <-.
        apply (Hskip rest (seen ++ [x])); [by rewrite <- app_assoc|]. by eapply Hstep. }
  intros acc w res w' Hw Hrun. by apply (Hgen all [] acc w res w').
Qed.

Lemma for_each_invariant {A S} (body : S → A → M S)
    (R : list A → S → world → Prop) (all : list A) :
  (∀ seen x rest acc w acc' w',
     all = seen ++ x :: rest → R seen acc w → body acc x w = (Ok acc', w') →
     R (seen ++ [x]) acc' w') →
  ∀ acc w acc' w', R [] acc w → for_each body all acc w = (Ok acc', w') → R all acc' w'.
Proof.
  intros Hstep.
  assert (∀ rest seen acc w acc' w',
            all = seen ++ rest → R seen acc w →
            for_each body rest acc w = (Ok acc', w') → R all acc' w') as Hgen.
  { induction rest as [|x rest IH]; intros seen acc w acc' w' Hall Hr Hrun.
    - injection Hrun as <- <-. rewrite app_nil_r in Hall. by subst.
    - rewrite for_each_cons in Hrun.
      destruct (body acc x w) as [[acc1|e] w1] eqn:Hbody; [|done].
      apply (IH (seen ++ [x]) acc1 w1 acc' w'); [by rewrite <- app_assoc| |done].
      by eapply Hstep. }
  intros acc w acc' w' Hr Hrun. by apply (Hgen all [] acc w acc' w').
Qed.

Section WeatherExtras.
Context `{Externals}.

(** The three ways a pass of the loop body can go. *)
Lemma fetch_group_cases (wd : gmap (num * num * string) weather) (lat lon : num)
    (dates : list string) (w w' : world) (res : result (gmap (num * num * string) weather)) :
  fetch_group wd (lat, lon, dates) w = (res, w') →
  (validate_coordinates lat lon = false ∧ res = Ok wd ∧ w' = w)
  ∨ (dates = [] ∧ res = Raise ValueError ∧ w' = w)
  ∨ (validate_coordinates lat lon = true
     ∧ ∃ first_date last_date (f : nat) (r : option response),
         let params := weather_query lat lon first_date last_date in
         let n := length (calls w) in
         min_str dates = Some first_date
         ∧ max_str dates = Some last_date
         ∧ res = record_response lat lon dates r wd
         ∧ w' = {| calls := calls w
                            ++ attempt_log WEATHER_API_URL params n
                                 (f + if r is Some _ then 1 else 0);
                   sleeps := sleeps w ++ replicate f DEFAULT_DELAY |}
         ∧ (∀ i, (i < f)%nat → attempt_fails (http_get (n + i) WEATHER_API_URL params))
         ∧ match r with
           | Some resp => (f < DEFAULT_RETRIES)%nat
                          ∧ http_get (n + f) WEATHER_API_URL params = GetReturns resp
                          ∧ ¬ (400 ≤ status_code resp < 600)
           | None => f = DEFAULT_RETRIES
           end).
Proof.
  intros Hrun.
  destruct (validate_coordinates lat lon) eqn:Hvalid; cycle 1.
  { left. unfold fetch_group in Hrun. rewrite Hvalid in Hrun. by injection Hrun as <- <-. }
  right. destruct (min_str dates) as [first_date|] eqn:Hmin; cycle 1.
  { left. unfold fetch_group in Hrun. rewrite Hvalid, Hmin in Hrun.
    injection Hrun as <- <-. by destruct dates. }
  destruct (max_str dates) as [last_date|] eqn:Hmax; cycle 1.
  { destruct dates; done. }
  right. split; [done|].
  destruct (fetch_group_valid wd lat lon dates first_date last_date w Hvalid Hmin Hmax)
    as (f & r & Heq & Hfails & Hr).
  rewrite Heq in Hrun. injection Hrun as <- <-.
  by exists first_date, last_date, f, r.
Qed.

End WeatherExtras.


Section WeatherLog.
Context `{Externals}.

Lemma attempt_log_app url params n a b :
  attempt_log url params n (a + b)
  = attempt_log url params n a ++ attempt_log url params (n + a) b.
Proof.
  unfold attempt_log. rewrite seq_app, fmap_app. f_equal.
  assert (seq (0 + a) b = Nat.add a <$> seq 0 b) as ->
    by (by rewrite fmap_add_seq, Nat.add_0_r).
  rewrite <- list_fmap_compose.
  apply list_fmap_ext. intros i x _. simpl. by rewrite Nat.add_assoc.
Qed.

Lemma length_attempt_log url params n k : length (attempt_log url params n k) = k.
Proof. unfold attempt_log. by rewrite length_fmap, length_seq. Qed.

(** Among the attempts of one request at most one is answered. *)
Lemma attempt_log_answered url params n (f : nat) (r : option response) :
  (∀ i, (i < f)%nat → attempt_fails (http_get (n + i) url params)) →
  (length (filter call_answered
             (attempt_log url params n (f + if r is Some _ then 1 else 0))) ≤ 1)%nat.
Proof.
  intros Hfails. rewrite attempt_log_app, filter_app, length_app.
  assert (filter call_answered (attempt_log url params n f) = []) as ->.
  { destruct (filter _ _) as [|c rest] eqn:Hfilter; [done|].
    assert (c ∈ filter call_answered (attempt_log url params n f)) as Hc
      by (rewrite Hfilter; left).
    apply list_elem_of_filter in Hc as [Hans Hc].
    apply elem_of_attempt_log in Hc as (i & Hi & ->). destruct Hans. by apply Hfails. }
  simpl. etransitivity; [apply length_filter|]. rewrite length_attempt_log.
  destruct r; lia.
Qed.

Lemma group_call_coordinate (g : num * num * list string) (c : http_call) :
  group_call g c → call_coordinate c = g.1.
Proof.
  intros (_ & _ & first_date & last_date & _ & _ & Hparams).
  unfold call_coordinate. rewrite Hparams. simpl. by destruct g as [[lat lon] dates].
Qed.

(** One pass of the loop body keeps the invariant of the log. *)
Lemma fetch_group_log (seen : list (num * num * list string))
    (wd : gmap (num * num * string) weather) (g : num * num * list string)
    (w w' : world) (res : result (gmap (num * num * string) weather)) :
  g.1 ∉ seen.*1 →
  weather_log_invariant seen w →
  fetch_group wd g w = (res, w') →
  weather_log_invariant (seen ++ [g]) w'.
Proof.
  intros Hfresh (Hcalls & Hnd & Hbound & Hsleeps & Hfewer) Hrun.
  destruct g as [[lat lon] dates]. simpl in Hfresh.
  assert (weather_log_invariant (seen ++ [(lat, lon, dates)]) w) as Hsame.
  { split; [|split; [done|split; [|done]]].
    - intros c Hc. destruct (Hcalls c Hc) as (g & Hg & ?). exists g. split; [|done].
      apply elem_of_app. by left.
    - rewrite filter_app, length_app. lia. }
  apply fetch_group_cases in Hrun
    as [(_ & _ & ->) | [(_ & _ & ->) | (Hvalid & first_date & last_date & f & r & Hrest)]];
    [done|done|].
  simpl in Hrest. destruct Hrest as (Hmin & Hmax & _ & -> & Hfails & Hr).
  set (params := weather_query lat lon first_date last_date) in *.
  set (k := (f + (if r is Some _ then 1 else 0))%nat) in *.
  assert (k ≤ 3 ∧ f ≤ k)%nat as [Hk Hfk].
  { unfold k, DEFAULT_RETRIES in *. destruct r; [destruct Hr|]; lia. }
  assert (∀ c, c ∈ attempt_log WEATHER_API_URL params (length (calls w)) k →
            group_call (lat, lon, dates) c) as Hnew.
  { intros c (i & _ & ->)%elem_of_attempt_log. split; [done|]. split; [done|].
    by exists first_date, last_date. }
  unfold weather_log_invariant. cbn [calls sleeps]. split; [|split; [|split; [|split]]].
  - intros c [Hc|Hc]%elem_of_app.
    + destruct (Hcalls c Hc) as (g & Hg & ?). exists g. split; [|done].
      apply elem_of_app. by left.
    + exists (lat, lon, dates). split; [|by apply Hnew]. apply elem_of_app. right. left.
  - rewrite filter_app, fmap_app. apply NoDup_app. split; [done|]. split.
    + intros coord Hold Hnew'.
      apply list_elem_of_fmap in Hold as (c & -> & Hc).
      apply list_elem_of_filter in Hc as [_ Hc].
      destruct (Hcalls c Hc) as (g & Hg & Hcall).
      apply list_elem_of_fmap in Hnew' as (c' & Heq & Hc').
      apply list_elem_of_filter in Hc' as [_ Hc'].
      rewrite (group_call_coordinate _ _ Hcall) in Heq.
      rewrite (group_call_coordinate _ _ (Hnew c' Hc')) in Heq. simpl in Heq.
      apply Hfresh. rewrite <- Heq. by apply list_elem_of_fmap_2.
    + pose proof (attempt_log_answered WEATHER_API_URL params (length (calls w)) f r Hfails)
        as Hone.
      fold k in Hone.
      destruct (filter call_answered
                  (attempt_log WEATHER_API_URL params (length (calls w)) k))
        as [|c [|c' rest]];
        [simpl; constructor|simpl; apply NoDup_singleton|simpl in Hone; lia].
  - rewrite length_app, length_attempt_log, filter_app, length_app.
    rewrite filter_cons_True by done. simpl. lia.
  - apply Forall_app. split; [done|]. by apply Forall_replicate.
  - rewrite !length_app, length_replicate, length_attempt_log. lia.
Qed.

(** The groups are never empty. *)
Lemma location_groups_nonempty (location_dates : list (num * num * string)) :
  Forall (λ g, g.2 ≠ []) (location_groups location_dates).
Proof.
  unfold location_groups.
  induction location_dates as [|[k d] rest IH] using rev_ind; [constructor|].
  rewrite foldl_app. simpl.
  induction IH as [|[k0 ds0] groups Hg Hgroups IHg]; simpl.
  - by repeat constructor.
  - destruct (decide (k0 = k)); constructor; try done. simpl. by destruct ds0.
Qed.

Lemma location_groups_keys (location_dates : list (num * num * string)) (k : num * num) :
  k ∈ (location_groups location_dates).*1 ↔ k ∈ location_dates.*1.
Proof.
  destruct (location_groups_spec location_dates) as [_ Hdates]. split.
  - intros ([k' ds] & -> & Hg)%list_elem_of_fmap. simpl.
    pose proof (location_groups_nonempty location_dates) as Hne.
    rewrite Forall_forall in Hne. specialize (Hne _ Hg). simpl in Hne.
    destruct ds as [|d ds]; [done|].
    apply list_elem_of_fmap. exists (k', d). split; [done|].
    apply Hdates. exists (d :: ds). split; [done|left].
  - intros ([k' d] & -> & Hin)%list_elem_of_fmap. simpl.
    apply Hdates in Hin as (ds & Hg & _).
    apply list_elem_of_fmap. by exists (k', ds).
Qed.

(** The invariant of the log holds when the run ends, however it ends. *)
Lemma batch_fetch_weather_log (location_dates : list (num * num * string))
    (res : result (gmap (num * num * string) weather)) (w' : world) :
  batch_fetch_weather location_dates world0 = (res, w') →
  weather_log_invariant (location_groups location_dates) w'.
Proof.
  intros Hrun. unfold batch_fetch_weather in Hrun.
  destruct (location_groups_spec location_dates) as [Hnd _].
  eapply (for_each_world_invariant fetch_group weather_log_invariant); [| | |exact Hrun].
  - intros seen g rest acc w res1 w1 Hall Hinv Hstep.
    eapply fetch_group_log; [|done..].
    rewrite Hall, fmap_app, fmap_cons in Hnd.
    apply NoDup_app in Hnd as (_ & Hdisj & _). intros Hin. apply (Hdisj _ Hin). left.
  - intros seen g rest w _ (Hcalls & Hnd' & Hbound & Hsleeps & Hfewer).
    split; [|split; [done|split; [|done]]].
    + intros c Hc. destruct (Hcalls c Hc) as (g' & Hg & ?). exists g'. split; [|done].
      apply elem_of_app. by left.
    + rewrite filter_app, length_app. lia.
  - split; [|split; [constructor|split; [simpl; lia|split; [constructor|done]]]].
    intros c Hc. by apply elem_of_nil in Hc.
Qed.

End WeatherLog.

Lemma NoDup_fst_unique {A B} (l : list (A * B)) (x : A) (y1 y2 : B) :
  NoDup l.*1 → (x, y1) ∈ l → (x, y2) ∈ l → y1 = y2.
Proof.
  induction l as [|[x0 y0] l IH]; intros Hnd H1 H2; [by apply elem_of_nil in H1|].
  rewrite fmap_cons in Hnd. apply NoDup_cons in Hnd as [Hx0 Hnd]. simpl in Hx0.
  apply elem_of_cons in H1 as [Heq1|H1]; apply elem_of_cons in H2 as [Heq2|H2].
  - congruence.
  - injection Heq1 as -> ->. destruct Hx0. apply list_elem_of_fmap. by exists (x0, y2).
  - injection Heq2 as -> ->. destruct Hx0. apply list_elem_of_fmap. by exists (x0, y1).
  - by apply IH.
Qed.

Lemma length_filter_fst {A B} (P : A → Prop) `{∀ x, Decision (P x)} (l : list (A * B)) :
  length (filter (λ g, P g.1) l) = length (filter P l.*1).
Proof.
  induction l as [|[x y] l IH]; [done|]. rewrite fmap_cons, !filter_cons. simpl.
  destruct (decide (P x)); simpl; by rewrite IH.
Qed.

(** X6. A run of the Weather Series Fetcher from a fresh log makes at most
    three calls per distinct valid coordinate of its input, whatever the
    server does and however the run ends; every sleep lasts 5, and there are
    never more sleeps than calls. *)
Theorem batch_fetch_weather_call_budget `{Externals}
    (location_dates : list (num * num * string))
    (res : result (gmap (num * num * string) weather)) (w' : world) :
  batch_fetch_weather location_dates world0 = (res, w') →
  (length (calls w')
   ≤ 3 * length (filter valid_coordinate (remove_dups location_dates.*1)))%nat
  ∧ Forall (λ delay, delay = 5) (sleeps w')
  ∧ (length (sleeps w') ≤ length (calls w'))%nat.
Proof.
  intros Hrun.
  destruct (batch_fetch_weather_log _ _ _ Hrun) as (_ & _ & Hbound & Hsleeps & Hfewer).
  split; [|done]. rewrite length_filter_fst in Hbound.
  assert ((location_groups location_dates).*1 ≡ₚ remove_dups location_dates.*1) as Hperm.
  { apply NoDup_Permutation.
    - apply location_groups_spec.
    - apply NoDup_remove_dups.
    - intros k. by rewrite location_groups_keys, elem_of_remove_dups. }
  by rewrite Hperm in Hbound.
Qed.

Lemma batch_fetch_weather_call_budget_witness :
  let E := example_externals example_history server_down in
  let location_dates :=
    [ (sao_paulo, "2024-01-03"); (sao_paulo, "2024-01-01");
      ((num_of_Z 100, num_of_Z 0), "2024-01-01") ]%string in
  let run := @batch_fetch_weather E location_dates world0 in
  (length (calls run.2) ≤ 3 * 1)%nat
  ∧ Forall (λ delay, delay = 5) (sleeps run.2)
  ∧ (length (sleeps run.2) ≤ length (calls run.2))%nat.
Proof.
  intros E location_dates run.
  apply (@batch_fetch_weather_call_budget E location_dates run.1 run.2).
  vm_compute. reflexivity.
Defined.

(** X7. Every call of the Weather Series Fetcher goes to the weather
    service, asks for the two daily metrics in the configured time zone, and
    is for a valid coordinate over a range whose two ends are dates requested
    for that coordinate and which covers every date requested for it. *)
Theorem batch_fetch_weather_request_range `{Externals}
    (location_dates : list (num * num * string))
    (res : result (gmap (num * num * string) weather)) (w' : world) :
  batch_fetch_weather location_dates world0 = (res, w') →
  ∀ c, c ∈ calls w' →
    let k := call_coordinate c in
    let p := call_params c in
    call_url c = WEATHER_API_URL
    ∧ daily p = ["temperature_2m_mean"; "precipitation_sum"]%string
    ∧ timezone p = TIMEZONE
    ∧ valid_coordinate k
    ∧ (k, start_date p) ∈ location_dates
    ∧ (k, end_date p) ∈ location_dates
    ∧ ∀ date, (k, date) ∈ location_dates →
        (start_date p ≤ date)%string ∧ (date ≤ end_date p)%string.
Proof.
  intros Hrun c Hc.
  destruct (batch_fetch_weather_log _ _ _ Hrun) as (Hcalls & _).
  destruct (location_groups_spec location_dates) as [Hnd Hdates].
  destruct (Hcalls c Hc) as ([coord ds] & Hg & Hcall).
  pose proof (group_call_coordinate _ _ Hcall) as Hcoord. simpl in Hcoord.
  destruct Hcall as (Hvalid & Hurl & first_date & last_date & Hmin & Hmax & Hparams).
  simpl in *. rewrite Hcoord, Hparams. simpl.
  apply min_str_spec in Hmin as [Hfirst Hleast].
  apply max_str_spec in Hmax as [Hlast Hmost].
  repeat (split; [done|]). split; [|split].
  - apply Hdates. by exists ds.
  - apply Hdates. by exists ds.
  - intros date Hdate. apply Hdates in Hdate as (ds' & Hg' & Hin).
    assert (ds' = ds) as -> by (by eapply NoDup_fst_unique).
    split; [by apply Hleast|by apply Hmost].
Qed.

Lemma batch_fetch_weather_request_range_witness :
  let E := example_externals example_history server_flaky in
  let location_dates :=
    [ (sao_paulo, "2024-01-03"); (sao_paulo, "2024-01-01") ]%string in
  let run := @batch_fetch_weather E location_dates world0 in
  Forall
    (λ c,
       let k := call_coordinate c in
       let p := call_params c in
       call_url c = WEATHER_API_URL
       ∧ daily p = ["temperature_2m_mean"; "precipitation_sum"]%string
       ∧ timezone p = TIMEZONE
       ∧ valid_coordinate k
       ∧ (k, start_date p) ∈ location_dates
       ∧ (k, end_date p) ∈ location_dates
       ∧ ∀ date, (k, date) ∈ location_dates →
           (start_date p ≤ date)%string ∧ (date ≤ end_date p)%string)
    (calls run.2).
Proof.
  intros E location_dates run. apply Forall_forall.
  apply (@batch_fetch_weather_request_range E location_dates run.1 run.2).
  vm_compute. reflexivity.
Defined.

(** X8. However a run of the Weather Series Fetcher goes, at most one call
    per coordinate is answered with a success status: the answered calls of
    the log have pairwise distinct coordinates. *)
Theorem batch_fetch_weather_one_answer_per_coordinate `{Externals}
    (location_dates : list (num * num * string))
    (res : result (gmap (num * num * string) weather)) (w' : world) :
  batch_fetch_weather location_dates world0 = (res, w') →
  NoDup (call_coordinate <$> filter call_answered (calls w')).
Proof.
  intros Hrun. by destruct (batch_fetch_weather_log _ _ _ Hrun) as (_ & Hnd & _).
Qed.

Lemma batch_fetch_weather_one_answer_per_coordinate_witness :
  let E := example_externals example_history server_flaky in
  let location_dates :=
    [ (sao_paulo, "2024-01-03"); (sao_paulo, "2024-01-01") ]%string in
  let run := @batch_fetch_weather E location_dates world0 in
  NoDup (call_coordinate <$> filter call_answered (calls run.2)).
Proof.
  intros E location_dates run.
  apply (@batch_fetch_weather_one_answer_per_coordinate E location_dates run.1 run.2).
  vm_compute. reflexivity.
Defined.

Section WeatherOutcome.
Context `{Externals}.



Lemma record_response_digestible (lat lon : num) (dates : list string)
    (resp : response) (wd : gmap (num * num * string) weather) :
  digestible (GetReturns resp) →
  ¬ (400 ≤ status_code resp < 600) →
  ∃ wd', record_response lat lon dates (Some resp) wd = Ok wd'.
Proof.
  intros [Hbad|Hshape] Hstatus; [done|]. unfold record_response, json.
  apply response_ok_true in Hstatus. rewrite Hstatus.
  destruct (content resp) as [|[d|]]; simpl; [done| |by eexists].
  destruct Hshape as (times & temps & precs & -> & Htemps & Hprecs & Hlt & Hlp). simpl.
  destruct (record_daily_full lat lon dates d 0 times temps precs wd)
    as (wd' & Hrun & _); [done..|]. by exists wd'.
Qed.


Lemma for_each_fetch_group_returns (groups : list (num * num * list string)) :
  Forall (λ g, g.2 ≠ []) groups →
  (∀ n url p, digestible (http_get n url p)) →
  ∀ (wd : gmap (num * num * string) weather) (w : world),
    ∃ wd' w', for_each fetch_group groups wd w = (Ok wd', w').
Proof.
  intros Hne Hserver.
  induction Hne as [|[[lat lon] dates] groups Hg Hgroups IH]; intros wd w.
  { by eexists _, _. }
  rewrite for_each_cons.
  destruct (fetch_group wd (lat, lon, dates) w) as [res w1] eqn:Hstep.
  apply fetch_group_cases in Hstep
    as [(_ & -> & _) | [(? & _) | (_ & ? & ? & f & r & _ & _ & -> & _ & _ & Hr)]];
    [apply IH|done|].
  destruct r as [resp|]; [|apply IH].
  destruct Hr as (_ & Hget & Hstatus).
  destruct (record_response_digestible lat lon dates resp wd) as [wd' ->];
    [rewrite <- Hget; apply Hserver|done|apply IH].
Qed.

(** The values of an entry are those of one position of its date. *)
Lemma record_daily_values (lat lon : num) (dates : list string) (d : daily_series)
    (i : nat) (times : list string) (wd wd' : gmap (num * num * string) weather) :
  record_daily lat lon dates d i times wd = Ok wd' →
  ∀ key v, wd' !! key = Some v →
    wd !! key = Some v
    ∨ ∃ date j temps precs,
        key = (lat, lon, date) ∧ times !! j = Some date
        ∧ temperature_2m_mean d = Some temps ∧ precipitation_sum d = Some precs
        ∧ temps !! (i + j)%nat = Some (mean_temp v)
        ∧ precs !! (i + j)%nat = Some (precipitation v).
Proof.
  revert i wd. induction times as [|date0 rest IH]; intros i wd Hrun key v Hv; simpl in Hrun.
  { injection Hrun as <-. by left. }
  assert (∀ wd1, record_daily lat lon dates d (S i) rest wd1 = Ok wd' →
            wd1 !! key = Some v
            ∨ ∃ date j temps precs,
                key = (lat, lon, date) ∧ (date0 :: rest) !! j = Some date
                ∧ temperature_2m_mean d = Some temps ∧ precipitation_sum d = Some precs
                ∧ temps !! (i + j)%nat = Some (mean_temp v)
                ∧ precs !! (i + j)%nat = Some (precipitation v)) as Hrest.
  { intros wd1 Hrun1.
    destruct (IH _ _ Hrun1 key v Hv) as [?|(date & j & temps & precs & ? & ? & ? & ? & ? & ?)];
      [by left|].
    right. exists date, (S j), temps, precs. rewrite Nat.add_succ_r. done. }
  destruct (decide (date0 ∈ dates)); [|by apply Hrest].
  destruct (temperature_2m_mean d) as [temps|] eqn:Htemps; [|done]. simpl in Hrun.
  unfold index in Hrun. destruct (temps !! i) as [t|] eqn:Ht; [|done]. simpl in Hrun.
  destruct (precipitation_sum d) as [precs|] eqn:Hprecs; [|done]. simpl in Hrun.
  destruct (precs !! i) as [p|] eqn:Hp; [|done]. simpl in Hrun.
  destruct (Hrest _ Hrun) as [Hins|?]; [|by right].
  rewrite lookup_insert in Hins. case_decide as Hkey; [|by left].
  injection Hins as <-. right. exists date0, 0%nat, temps, precs.
  rewrite Nat.add_0_r. done.
Qed.

End WeatherOutcome.



(** X10. When every outcome the server can give is digestible (a failure, or
    a success whose body is a JSON object without daily series or with a
    complete one), the Weather Series Fetcher returns a mapping, from any
    state of the run and for any input. *)
Theorem batch_fetch_weather_returns `{Externals}
    (location_dates : list (num * num * string)) (w : world) :
  (∀ n url p, digestible (http_get n url p)) →
  ∃ wd w', batch_fetch_weather location_dates w = (Ok wd, w').
Proof.
  intros Hserver. apply for_each_fetch_group_returns; [|done].
  apply location_groups_nonempty.
Qed.

Lemma batch_fetch_weather_returns_witness :
  let E := example_externals example_history server_flaky in
  ∃ wd w', @batch_fetch_weather E
             [ (sao_paulo, "2024-01-03"); (sao_paulo, "2024-01-01") ]%string world0
           = (Ok wd, w').
Proof.
  intros E. apply (@batch_fetch_weather_returns E).
  intros [|[|n]] url p; simpl.
  - exact I.
  - left. lia.
  - right. exists ["2024-01-01"; "2024-01-02"; "2024-01-03"]%string.
    eexists _, _. repeat split; simpl; lia.
Defined.

Lemma entries_aligned_mono `{Externals} (wd : gmap (num * num * string) weather)
    (w w' : world) :
  (∀ c, c ∈ calls w → c ∈ calls w') → entries_aligned wd w → entries_aligned wd w'.
Proof.
  intros Hsub Hold lat lon date v Hv.
  destruct (Hold _ _ _ _ Hv) as (c & r & d & times & temps & precs & i & Hc & Hrest).
  exists c, r, d, times, temps, precs, i. split; [by apply Hsub|done].
Qed.

Lemma fetch_group_aligned `{Externals} (wd wd' : gmap (num * num * string) weather)
    (g : num * num * list string) (w w' : world) :
  entries_aligned wd w →
  fetch_group wd g w = (Ok wd', w') →
  entries_aligned wd' w'.
Proof.
  destruct g as [[lat0 lon0] dates]. intros Hold Hstep.
  apply fetch_group_cases in Hstep
    as [(_ & [= <-] & ->) | [(_ & ? & _) | (Hvalid & first_date & last_date & f & r & Hrest)]];
    [done|done|].
  simpl in Hrest. destruct Hrest as (_ & _ & Hres & -> & _ & Hr).
  set (w1 := {| calls := _; sleeps := _ |}).
  assert (entries_aligned wd w1) as Hkeep.
  { eapply entries_aligned_mono; [|done]. intros c Hc. apply elem_of_app. by left. }
  unfold record_response, json in Hres.
  destruct r as [resp|]; [|by injection Hres as <-].
  destruct Hr as (_ & Hget & Hstatus).
  apply response_ok_true in Hstatus as Hok. rewrite Hok in Hres.
  destruct (content resp) as [|[d|]] eqn:Hcontent; simpl in Hres;
    [done| |by injection Hres as <-].
  destruct (time d) as [times|] eqn:Htimes; [|done]. simpl in Hres. symmetry in Hres.
  intros lat lon date v Hv.
  destruct (record_daily_values _ _ _ _ _ _ _ _ Hres _ _ Hv)
    as [Hwd | (date' & j & temps & precs & [= -> -> ->] & Hj & Htemps & Hprecs & Ht & Hp)];
    [by apply Hkeep|].
  eexists _, resp, d, times, temps, precs, j. split; [|split; [|done]].
  - apply elem_of_app. right. apply elem_of_attempt_log. exists f. split; [lia|done].
  - split; [done|]. split; [done|]. simpl. by rewrite Hget.
Qed.

(** X11. The two values of an entry of the returned mapping are aligned: they
    are the mean temperature and the precipitation at one position, in the
    daily series of a call answered for the coordinate of the entry, at which
    the series has the date of the entry. *)
Theorem batch_fetch_weather_values_aligned `{Externals}
    (location_dates : list (num * num * string))
    (wd : gmap (num * num * string) weather) (w' : world)
    (lat lon : num) (date : string) (v : weather) :
  batch_fetch_weather location_dates world0 = (Ok wd, w') →
  wd !! (lat, lon, date) = Some v →
  ∃ c r d times temps precs (i : nat),
    c ∈ calls w' ∧ answered c lat lon r ∧ content r = JsonObject (Some d)
    ∧ time d = Some times
    ∧ temperature_2m_mean d = Some temps
    ∧ precipitation_sum d = Some precs
    ∧ times !! i = Some date
    ∧ temps !! i = Some (mean_temp v)
    ∧ precs !! i = Some (precipitation v).
Proof.
  intros Hrun. revert lat lon date v. fold (entries_aligned wd w').
  unfold batch_fetch_weather in Hrun.
  eapply (for_each_invariant fetch_group (λ _, entries_aligned)); [| |exact Hrun].
  - intros seen g rest acc w acc' w1 _ Hold Hstep. by eapply fetch_group_aligned.
  - intros lat lon date v Hv. by rewrite lookup_empty in Hv.
Qed.

Lemma batch_fetch_weather_values_aligned_witness :
  let E := example_externals example_history server_flaky in
  let location_dates :=
    [ (sao_paulo, "2024-01-03"); (sao_paulo, "2024-01-01") ]%string in
  let run := @batch_fetch_weather E location_dates world0 in
  ∃ c r d times temps precs (i : nat),
    c ∈ calls run.2 ∧ answered c sao_paulo.1 sao_paulo.2 r
    ∧ content r = JsonObject (Some d)
    ∧ time d = Some times
    ∧ temperature_2m_mean d = Some temps
    ∧ precipitation_sum d = Some precs
    ∧ times !! i = Some "2024-01-03"%string
    ∧ temps !! i = Some (Some (num_of_Z 24))
    ∧ precs !! i = Some (Some (num_of_Z 0)).
Proof.
  intros E location_dates run.
  apply (@batch_fetch_weather_values_aligned E location_dates
           (match run.1 with Ok wd => wd | Raise _ => ∅ end) run.2
           sao_paulo.1 sao_paulo.2 "2024-01-03"%string
           {| mean_temp := Some (num_of_Z 24); precipitation := Some (num_of_Z 0) |}).
  - vm_compute. reflexivity.
  - vm_compute. reflexivity.
Defined.

(** * Further properties of the Coordinate Resolver *)

Lemma num_of_Z_add (a b : Z) : num_of_Z (a + b) = (num_of_Z a + num_of_Z b)%Qc.
Proof.
  unfold num_of_Z. apply Qc_is_canon. simpl.
  rewrite !Qred_correct. rewrite inject_Z_plus. reflexivity.
Qed.

Lemma num_of_Z_pos (a : Z) : 0 < a → (num_of_Z 0 < num_of_Z a)%Qc.
Proof.
  intros Ha. unfold num_of_Z, Qclt. simpl. rewrite !Qred_correct.
  unfold Qlt. simpl. lia.
Qed.

Lemma count_cons (x : num) (xs : list num) : count (x :: xs) = (count xs + num_of_Z 1)%Qc.
Proof.
  unfold count. cbn [length]. rewrite Nat2Z.inj_succ, <- Z.add_1_r. apply num_of_Z_add.
Qed.

Lemma count_pos (xs : list num) : xs ≠ [] → (num_of_Z 0 < count xs)%Qc.
Proof. intros Hne. apply num_of_Z_pos. destruct xs; [done|]. simpl. lia. Qed.

Lemma sum_list_lower (lo : num) (xs : list num) :
  Forall (λ x, (lo ≤ x)%Qc) xs → (lo * count xs ≤ sum_list xs)%Qc.
Proof.
  induction 1 as [|x xs Hx Hxs IH].
  - unfold count, sum_list. simpl. change (num_of_Z 0) with (Q2Qc 0).
    rewrite Qcmult_0_r. apply Qcle_refl.
  - rewrite count_cons. cbn [sum_list foldr]. fold (sum_list xs).
    change (num_of_Z 1) with 1%Qc.
    replace (lo * (count xs + 1))%Qc with (lo + lo * count xs)%Qc by ring.
    by apply Qcplus_le_compat.
Qed.

Lemma sum_list_upper (hi : num) (xs : list num) :
  Forall (λ x, (x ≤ hi)%Qc) xs → (sum_list xs ≤ hi * count xs)%Qc.
Proof.
  induction 1 as [|x xs Hx Hxs IH].
  - unfold count, sum_list. simpl. change (num_of_Z 0) with (Q2Qc 0).
    rewrite Qcmult_0_r. apply Qcle_refl.
  - rewrite count_cons. cbn [sum_list foldr]. fold (sum_list xs).
    change (num_of_Z 1) with 1%Qc.
    replace (hi * (count xs + 1))%Qc with (hi + hi * count xs)%Qc by ring.
    by apply Qcplus_le_compat.
Qed.

(** The mean of values of an interval lies in the interval. *)
Lemma mean_between (lo hi : num) (xs : list num) :
  xs ≠ [] →
  Forall (λ x, (lo ≤ x ∧ x ≤ hi)%Qc) xs →
  (lo ≤ mean xs ∧ mean xs ≤ hi)%Qc.
Proof.
  intros Hne Hall. pose proof (count_pos xs Hne) as Hpos.
  assert (count xs ≠ Q2Qc 0) as Hnz.
  { intros Heq. rewrite Heq in Hpos. by apply Qclt_not_eq in Hpos. }
  assert (mean xs * count xs = sum_list xs)%Qc as Hmean.
  { unfold mean. rewrite Qcmult_comm. by apply Qcmult_div_r. }
  split; apply (Qcmult_lt_0_le_reg_r _ _ (count xs) Hpos); rewrite Hmean.
  - apply sum_list_lower. eapply Forall_impl; [done|]. by intros x [? ?].
  - apply sum_list_upper. eapply Forall_impl; [done|]. by intros x [? ?].
Qed.

Lemma validate_coordinates_spec (lat lon : num) :
  validate_coordinates lat lon = true
  ↔ (num_of_Z (-90) ≤ lat ∧ lat ≤ num_of_Z 90)%Qc
    ∧ (num_of_Z (-180) ≤ lon ∧ lon ≤ num_of_Z 180)%Qc.
Proof.
  unfold validate_coordinates, VALID_LAT_RANGE, VALID_LON_RANGE. simpl.
  rewrite andb_true_iff, !bool_decide_eq_true. done.
Qed.

(** A group of valid samples has a valid mean coordinate. *)
Lemma validate_coordinates_mean (g : list geo_row) :
  g ≠ [] →
  Forall valid_geo_row g →
  validate_coordinates (mean (geolocation_lat <$> g)) (mean (geolocation_lng <$> g)) = true.
Proof.
  intros Hne Hall. apply validate_coordinates_spec. split.
  - apply mean_between; [by destruct g|]. apply Forall_fmap.
    eapply Forall_impl; [done|]. intros r Hr. apply validate_coordinates_spec in Hr.
    simpl. tauto.
  - apply mean_between; [by destruct g|]. apply Forall_fmap.
    eapply Forall_impl; [done|]. intros r Hr. apply validate_coordinates_spec in Hr.
    simpl. tauto.
Qed.

(** X12. When every location sample has a valid coordinate, as after
    cleaning, the Coordinate Resolver loses no zip prefix: the prefixes of its
    output are exactly the prefixes of its input (the mean of valid
    coordinates is valid, so the final filter drops nothing). *)
Theorem process_geolocations_keeps_valid_prefixes (geolocations : list geo_row) :
  Forall valid_geo_row geolocations →
  ∀ z, z ∈ geolocation_zip_code_prefix <$> process_geolocations geolocations
       ↔ z ∈ geolocation_zip_code_prefix <$> geolocations.
Proof.
  intros Hvalid z. unfold process_geolocations. split.
  - intros (r & -> & Hr)%list_elem_of_fmap.
    apply list_elem_of_filter in Hr as [_ Hr].
    apply list_elem_of_fmap in Hr as (k & -> & Hk). simpl. by apply elem_of_zip_keys.
  - intros Hz. apply list_elem_of_fmap.
    exists (agg_zip_group z (zip_group z geolocations)). split; [done|].
    apply list_elem_of_filter. split.
    + apply validate_coordinates_mean; [by apply zip_group_nonempty|].
      apply Forall_forall. intros r [_ Hr]%list_elem_of_filter.
      rewrite Forall_forall in Hvalid. by apply Hvalid.
    + apply list_elem_of_fmap. exists z. split; [done|]. by apply elem_of_zip_keys.
Qed.

Lemma process_geolocations_keeps_valid_prefixes_witness :
  "01310"%string ∈ geolocation_zip_code_prefix <$> process_geolocations example_geolocations
  ↔ "01310"%string ∈ geolocation_zip_code_prefix <$> example_geolocations.
Proof.
  apply (process_geolocations_keeps_valid_prefixes example_geolocations).
  apply (bool_decide_unpack _). vm_compute. exact I.
Defined.

Lemma StronglySorted_filter {A} (R : relation A) (P : A → Prop) `{∀ x, Decision (P x)}
    (l : list A) :
  StronglySorted R l → StronglySorted R (filter P l).
Proof.
  induction 1 as [|x l Hl IH Hx]; [constructor|].
  rewrite filter_cons. destruct (decide (P x)); [|done].
  constructor; [done|]. apply Forall_forall. intros y [_ Hy]%list_elem_of_filter.
  rewrite Forall_forall in Hx. by apply Hx.
Qed.

Lemma process_geolocations_prefixes (geolocations : list geo_row) :
  geolocation_zip_code_prefix <$> process_geolocations geolocations
  = filter (λ k, valid_geo_row (agg_zip_group k (zip_group k geolocations)))
           (zip_keys geolocations).
Proof.
  unfold process_geolocations.
  induction (zip_keys geolocations) as [|k ks IH]; [done|].
  rewrite fmap_cons, !filter_cons.
  destruct (decide (valid_geo_row _)); [rewrite fmap_cons; simpl|]; by rewrite IH.
Qed.

(** X13. The rows of the Coordinate Resolver come in ascending order of zip
    prefix, and no two rows share a prefix. *)
Theorem process_geolocations_sorted (geolocations : list geo_row) :
  let prefixes := geolocation_zip_code_prefix <$> process_geolocations geolocations in
  StronglySorted String.le prefixes ∧ NoDup prefixes.
Proof.
  simpl. rewrite process_geolocations_prefixes. split.
  - apply StronglySorted_filter. unfold zip_keys. apply StronglySorted_merge_sort; apply _.
  - apply NoDup_filter, zip_keys_NoDup.
Qed.



Lemma filter_unique_key_singleton {A B} `{EqDecision B} (key : A → B) (l : list A) (x : A) :
  NoDup (key <$> l) → x ∈ l → filter (λ y, key y = key x) l = [x].
Proof.
  induction l as [|y l IH]; intros Hnd Hx; [by apply elem_of_nil in Hx|].
  rewrite fmap_cons in Hnd. apply NoDup_cons in Hnd as [Hy Hnd].
  rewrite filter_cons. destruct (decide (key y = key x)) as [Heq|Hne].
  - assert (x = y) as <-.
    { apply elem_of_cons in Hx as [?|Hx]; [done|].
      destruct Hy. rewrite Heq. by apply list_elem_of_fmap_2. }
    f_equal. destruct (filter _ l) as [|z rest] eqn:Hfilter; [done|].
    assert (z ∈ filter (λ y, key y = key x) l) as Hz by (rewrite Hfilter; left).
    apply list_elem_of_filter in Hz as [Hkz Hz].
    destruct Hy. rewrite <- Hkz. by apply list_elem_of_fmap_2.
  - apply elem_of_cons in Hx as [->|Hx]; [done|]. by apply IH.
Qed.

Lemma filter_all {A} (P : A → Prop) `{∀ x, Decision (P x)} (l : list A) :
  Forall P l → filter P l = l.
Proof.
  induction 1 as [|x l Hx Hl IH]; [done|]. by rewrite filter_cons_True, IH.
Qed.

Lemma mean_singleton (x : num) : mean [x] = x.
Proof.
  unfold mean, sum_list, count. cbn [foldr length].
  change (num_of_Z 0) with (Q2Qc 0). change (num_of_Z (Z.of_nat 1)) with 1%Qc.
  unfold num in *. field. discriminate.
Qed.

Lemma agg_zip_group_singleton (r : geo_row) :
  agg_zip_group (geolocation_zip_code_prefix r) [r] = r.
Proof. destruct r. unfold agg_zip_group. simpl. by rewrite !mean_singleton. Qed.

(** X15. The Coordinate Resolver is idempotent: resolving its own output
    again returns it unchanged. *)
Theorem process_geolocations_idempotent (geolocations : list geo_row) :
  process_geolocations (process_geolocations geolocations)
  = process_geolocations geolocations.
Proof.
  set (out := process_geolocations geolocations).
  destruct (process_geolocations_sorted geolocations) as [Hsorted Hnd]. fold out in Hsorted, Hnd.
  assert (zip_keys out = geolocation_zip_code_prefix <$> out) as Hkeys.
  { unfold zip_keys. apply (StronglySorted_unique String.le); [|done|].
    - apply StronglySorted_merge_sort; apply _.
    - rewrite merge_sort_Permutation. apply NoDup_Permutation; [apply NoDup_remove_dups|done|].
      intros k. apply elem_of_remove_dups. }
  unfold process_geolocations at 1. fold out. rewrite Hkeys, <- list_fmap_compose.
  assert ((λ k, agg_zip_group k (zip_group k out)) ∘ geolocation_zip_code_prefix <$> out
          = out) as ->.
  { transitivity (id <$> out); [|apply list_fmap_id].
    apply list_fmap_ext. intros i r Hr. simpl. unfold zip_group.
    rewrite (filter_unique_key_singleton geolocation_zip_code_prefix out r);
      [apply agg_zip_group_singleton|done|]. by eapply list_elem_of_lookup_2. }
  apply filter_all. apply Forall_forall. intros r Hr.
  unfold out, process_geolocations in Hr. by apply list_elem_of_filter in Hr as [? _].
Qed.

(** * Further properties of the Relational Joiner *)

Lemma elem_of_merge_left {L R} (matches : L → list R) (left : list L) (l : L) (o : option R) :
  (l, o) ∈ merge_left matches left
  ↔ l ∈ left ∧ (o = None ∧ matches l = [] ∨ ∃ r, o = Some r ∧ r ∈ matches l).
Proof.
  unfold merge_left. rewrite list_elem_of_bind. split.
  - intros (l' & Hin & Hl'). destruct (matches l') as [|r rs] eqn:Hm.
    + apply list_elem_of_singleton in Hin. injection Hin as -> ->.
      split; [done|]. by left.
    + apply list_elem_of_fmap in Hin as (r' & [= -> ->] & Hr').
      split; [done|]. right. exists r'. by rewrite Hm.
  - intros (Hl & [[-> Hm] | (r & -> & Hr)]).
    + exists l. split; [|done]. rewrite Hm. left.
    + exists l. split; [|done]. destruct (matches l) as [|r0 rs]; [by apply elem_of_nil in Hr|].
      apply list_elem_of_fmap. by exists r.
Qed.

(** X16. For every input, the rows of the Relational Joiner are exactly the
    rows built from a key of the inner merge, a customer row with the key's
    customer id and a coordinate row with that customer's zip prefix: a line
    without order, an order without customer id, a customer without match
    and a zip prefix without coordinate contribute nothing. *)
Theorem join_olist_data_rows
    (sells : list sellers.row) (ords : list orders.row) (items : list order_items.row)
    (geo_processed : list geo_row) (custs : list customers.row) (r : joined.row) :
  let orders_items := merge_order_items_orders items ords in
  r ∈ join_olist_data sells ords items geo_processed custs
  ↔ ∃ (k : order_key) (c : customers.row) (g : geo_row),
      (∃ line, line ∈ orders_items ∧ group_key line = Some k)
      ∧ c ∈ custs ∧ customers.customer_id c = k.1.1.2
      ∧ g ∈ geo_processed
      ∧ geolocation_zip_code_prefix g = customers.customer_zip_code_prefix c
      ∧ r = {| joined.order_id := k.1.1.1.1;
               joined.seller_id := k.1.1.1.2;
               joined.order_purchase_timestamp := k.1.2;
               joined.order_delivered_customer_date := k.2;
               joined.total_order_value :=
                 sum_list (omap total_price
                             (filter (λ line, group_key line = Some k) orders_items));
               joined.delivery_location_latitude := geolocation_lat g;
               joined.delivery_location_longitude := geolocation_lng g |}.
Proof.
  intros orders_items. unfold join_olist_data. fold orders_items.
  rewrite list_elem_of_omap. split.
  - intros ([[a oc] og] & Hin & Hrow).
    apply elem_of_merge_left in Hin as [Hin Hgeo]. simpl in Hgeo.
    apply elem_of_merge_left in Hin as [Ha Hcust].
    apply list_elem_of_fmap in Ha as (k & -> & Hk). apply elem_of_order_keys in Hk.
    destruct og as [g|]; [|done]. simpl in Hrow. injection Hrow as <-.
    destruct Hgeo as [[? _] | (g' & [= <-] & Hg)]; [done|].
    destruct oc as [c|]; [|by apply elem_of_nil in Hg].
    apply list_elem_of_filter in Hg as [Hzip Hg].
    destruct Hcust as [[? _] | (c' & [= <-] & Hc)]; [done|].
    apply list_elem_of_filter in Hc as [Hcid Hc].
    destruct k as [[[[oid sid] cid] purchased] delivered]. simpl in *.
    exists (oid, sid, cid, purchased, delivered), c, g.
    repeat (split; [done|]). simpl. unfold sum_skipna, order_group.
    by rewrite omap_fmap.
  - intros (k & c & g & Hk & Hc & Hcid & Hg & Hzip & ->).
    exists (agg_order_group k (order_group k orders_items), Some c, Some g). split.
    + apply elem_of_merge_left. split.
      * apply elem_of_merge_left. split.
        -- apply list_elem_of_fmap. exists k. split; [done|]. by apply elem_of_order_keys.
        -- right. exists c. split; [done|]. apply list_elem_of_filter. split; [|done].
           destruct k as [[[[oid sid] cid] purchased] delivered]. done.
      * right. exists g. split; [done|]. simpl. by apply list_elem_of_filter.
    + destruct k as [[[[oid sid] cid] purchased] delivered]. simpl.
      unfold sum_skipna, order_group. by rewrite omap_fmap.
Qed.
